(** * genbase_test_helpers: a deterministic classifier adapter and fixture utilities

    A shallow embedding of [genbase_test_helpers/__init__.py]:
    the class [DeterministicTextClassifier] (an adapter that answers the
    classifier interface from an injected prediction function and a label
    encoder) and the fixture utilities [corrupt] and [random_combinations].

    Python values are modelled as follows.
    - Exceptions: a call returns a [result], either [Ok v] or [Err e].
    - [self]: the adapter is a record; a method that assigns a field returns
      the new record.
    - [dict]: a [gmap]; [frozenset]: a [gset]; [list] and [tuple]: [list].
    - [int] arguments that may be negative: [Z]; indices and lengths: [nat].
    - The global random generator: an explicit stream of raw draws threaded
      through every call that consumes randomness. *)

From Stdlib Require Import ZArith QArith Qcanon Ascii String.
From stdpp Require Import base option list gmap sets strings sorting.

Local Open Scope string_scope.
Local Open Scope list_scope.

(** ** Exceptions and fallible results *)

Inductive exn : Type :=
  | KeyError
  | IndexError
  | ValueError
  | Raised (msg : string).

(** [KeyError] and [IndexError] are the two subclasses of [LookupError]. *)
Definition is_LookupError (e : exn) : bool :=
  match e with
  | KeyError | IndexError => true
  | ValueError | Raised _ => false
  end.

Inductive result (A : Type) : Type :=
  | Ok (a : A)
  | Err (e : exn).
Arguments Ok {A} a.
Arguments Err {A} e.

#[global] Instance result_ret : MRet result := λ A a, Ok a.
#[global] Instance result_bind : MBind result := λ A B f r,
  match r with
  | Ok a => f a
  | Err e => Err e
  end.
#[global] Instance result_fmap : FMap result := λ A B f r,
  match r with
  | Ok a => Ok (f a)
  | Err e => Err e
  end.

(** [[f(x) for x in xs]] where [f] may raise: the first exception aborts
    the comprehension. *)
Fixpoint traverse {A B : Type} (f : A → result B) (xs : list A) : result (list B) :=
  match xs with
  | [] => Ok []
  | x :: xs' =>
      y ← f x;
      ys ← traverse f xs';
      mret (y :: ys)
  end.

(** [seq[i]] on a Python sequence. *)
Definition getitem {A : Type} (l : list A) (i : nat) : result A :=
  match l !! i with
  | Some x => Ok x
  | None => Err IndexError
  end.

(** ** The [random] module

    Modelled from the spec: Python's [random] module is imported, not
    defined, by the repository. The spec has [corrupt] choose one character
    of the alphabet at random and [random_combinations] draw the elements of
    a combination without replacement; the model follows the standard
    library: [choice] indexes the sequence at [_randbelow(len(seq))], and
    [sample] runs its selection loop over a copy of the population. Every
    outcome of a draw is the outcome for some stream. *)

Module Random.

(** The generator state: the stream of raw draws still to come. *)
Definition rng : Type := nat → nat.

(** A computation that consumes randomness and may raise. *)
Definition rand (A : Type) : Type := rng → result A * rng.

Definition ret {A : Type} (a : A) : rand A := λ g, (Ok a, g).
Definition raise {A : Type} (e : exn) : rand A := λ g, (Err e, g).
Definition bind {A B : Type} (m : rand A) (f : A → rand B) : rand B :=
  λ g, match m g with
       | (Ok a, g') => f a g'
       | (Err e, g') => (Err e, g')
       end.

(** [Random._randbelow(n)]: an integer in [range(n)], here the next raw
    draw reduced modulo [n]. *)
Definition _randbelow (n : nat) : rand nat :=
  λ g, (Ok (g 0 mod n), λ i, g (S i)).

(** [random.choice(seq)]: [seq[self._randbelow(len(seq))]], and
    [IndexError] on an empty sequence. *)
Definition choice {A : Type} (seq : list A) : rand A :=
  match seq with
  | [] => raise IndexError
  | _ =>
      bind (_randbelow (length seq)) (λ j,
      match seq !! j with
      | Some x => ret x
      | None => raise IndexError
      end)
  end.

(** The selection loop of [random.sample]: for [i] in [range(k)], with
    [m = n - i] the live prefix of [pool],
    [j = randbelow(n-i); result[i] = pool[j]; pool[j] = pool[n-i-1]]. *)
Fixpoint sample_loop {A : Type} (k m : nat) (pool : list A) : rand (list A) :=
  match k with
  | 0 => ret []
  | S k' =>
      bind (_randbelow m) (λ j,
      match pool !! j, pool !! (m - 1) with
      | Some x, Some y =>
          bind (sample_loop k' (m - 1) (<[j:=y]> pool)) (λ r, ret (x :: r))
      | _, _ => raise IndexError
      end)
  end.

(** [random.sample(population, k)]: [ValueError] unless [0 <= k <= n],
    otherwise [k] elements at distinct positions of the population. *)
Definition sample {A : Type} (population : list A) (k : nat) : rand (list A) :=
  if decide (k ≤ length population)%nat
  then sample_loop k (length population) population
  else raise ValueError.

(** A list comprehension whose body consumes randomness. *)
Fixpoint for_each {A B : Type} (f : A → rand B) (xs : list A) : rand (list B) :=
  match xs with
  | [] => ret []
  | x :: xs' => bind (f x) (λ y, bind (for_each f xs') (λ ys, ret (y :: ys)))
  end.

(** Lift a computation that only may raise. *)
Definition lift {A : Type} (r : result A) : rand A := λ g, (r, g).

End Random.

(** ** Fixture utilities *)

Definition ascii_lowercase : string := "abcdefghijklmnopqrstuvwxyz".
Definition digits : string := "0123456789".

(** The argument of [corrupt], of type [Union[Iterable[str], str]]. *)
Inductive names_arg : Type :=
  | a_str (s : string)
  | a_iterable (l : list string).

(** What [corrupt] returns: a string or a list of strings. *)
Inductive names_res : Type :=
  | r_str (s : string)
  | r_list (l : list string).

(** [isinstance(names, Iterable)]: a [str] has [__iter__], as every other
    iterable has. *)
Definition isinstance_Iterable (names : names_arg) : bool :=
  match names with
  | a_str _ => true
  | a_iterable _ => true
  end.

(** [for s in names]: iterating a [str] yields its characters as strings of
    length one. *)
Definition iter_names (names : names_arg) : list string :=
  match names with
  | a_str s => (λ c, String c EmptyString) <$> list_ascii_of_string s
  | a_iterable l => l
  end.

(** [f'{random.choice(ascii_lowercase + digits)}{name}'] *)
Definition corrupt_one (name : string) : Random.rand string :=
  Random.bind (Random.choice (list_ascii_of_string (ascii_lowercase ++ digits)))
    (λ c, Random.ret (String c name)).

(** [corrupt]: the list branch for an [Iterable], [corrupt_one(names)]
    otherwise. No argument of the declared type reaches the second branch
    as an iterable. *)
Definition corrupt (names : names_arg) : Random.rand names_res :=
  if isinstance_Iterable names
  then Random.bind (Random.for_each corrupt_one (iter_names names))
         (λ l, Random.ret (r_list l))
  else
    match names with
    | a_str s => Random.bind (corrupt_one s) (λ s', Random.ret (r_str s'))
    | a_iterable _ => Random.raise (Raised "unreachable")
    end.

(** [sorted(xs)] on integers. *)
Definition sorted (xs : list nat) : list nat := merge_sort Nat.le xs.

(** [min(len(pool), max(0, start))] *)
Definition clamp_start (len : nat) (start : Z) : nat :=
  Nat.min len (Z.to_nat (Z.max 0 start)).

(** The inner function of [random_combinations]:
    [[pool[i] for i in sorted(random.sample(range(len(pool)), r))]]. *)
Definition random_combination {A : Type} (pool : list A) (r : nat) : Random.rand (list A) :=
  Random.bind (Random.sample (seq 0 (length pool)) r)
    (λ idx, Random.lift (traverse (getitem pool) (sorted idx))).

(** [range(start, stop)] for [0 <= start]. *)
Definition range (start stop : nat) : list nat := seq start (stop - start).

Definition random_combinations {A : Type} (iterable : list A) (start : Z)
    : Random.rand (list (list A)) :=
  let pool := iterable in
  let start := clamp_start (length pool) start in
  Random.for_each (random_combination pool) (range start (length pool + 1)).

(** The characters [corrupt_one] draws from. *)
Definition alphabet : list ascii := list_ascii_of_string (ascii_lowercase ++ digits).

(** [clamp(x, lo, hi)], as the specification words the first size of
    [random_combinations]; compared with [clamp_start] below. *)
Definition spec_clamp (x lo hi : Z) : Z :=
  if (x <? lo)%Z then lo else if (hi <? x)%Z then hi else x.

(** ** Collaborators of the adapter: numpy and instancelib *)

(** The comparison [<=] on scores. numpy compares [float64] values; on rows
    that hold no NaN this is a total preorder, which is all the properties
    below rely on. *)
Class ScoreLe (score : Type) : Type := score_le : score → score → bool.

Class ScoreLeLaws (score : Type) `{ScoreLe score} : Prop := {
  score_le_total x y : score_le x y = true ∨ score_le y x = true;
  score_le_trans x y z :
    score_le x y = true → score_le y z = true → score_le x z = true
}.

Section numpy.
Context {score : Type} `{ScoreLe score}.

(** Modelled from the spec: [numpy] is imported, not defined, by the
    repository. The spec has [argmax] select the column of the maximum
    score, ties broken by the lowest column index; the model is the scan
    numpy runs over a row: the running maximum [best] at index [best_i] is
    replaced when the next element is not [<=] it. *)
Fixpoint argmax_scan (best : score) (best_i i : nat) (row : list score) : nat :=
  match row with
  | [] => best_i
  | x :: row' =>
      if score_le x best
      then argmax_scan best best_i (S i) row'
      else argmax_scan x i (S i) row'
  end.

(** [np.argmax] of a one-dimensional array; an empty one is refused. *)
Definition np_argmax_row (row : list score) : result nat :=
  match row with
  | [] => Err ValueError
  | x :: row' => Ok (argmax_scan x 0 1 row')
  end.

(** [np.argmax(y_pred, axis=1)] on a two-dimensional array, held as the
    list of its rows. *)
Definition np_argmax_axis1 (y_pred : list (list score)) : result (list nat) :=
  traverse np_argmax_row y_pred.

(** Column [c] holds a maximum of [row], and no column before it does. *)
Definition is_first_argmax (row : list score) (c : nat) : Prop :=
  ∃ v, row !! c = Some v ∧
       (∀ j w, row !! j = Some w → score_le w v = true) ∧
       (∀ j w, (j < c)%nat → row !! j = Some w → score_le v w = false).

(** Modelled from the spec: [np.vstack] stacks the per-instance score
    vectors into a matrix, one row per instance in input order; numpy
    refuses vectors of different lengths and an empty list of them. *)
Definition np_vstack (rows : list (list score)) : result (list (list score)) :=
  match rows with
  | [] => Err ValueError
  | r :: rs =>
      if forallb (λ r', length r' =? length r)%nat rs
      then Ok rows
      else Err ValueError
  end.
End numpy.

Section chunks.
Context {A : Type}.

(** Modelled from the spec: the contiguous batches of at most [b] elements
    that [divide_iterable_in_lists] produces. While an element is left, it
    and the next [b - 1] elements form a batch. [fuel] bounds the number of
    batches; [length l] is enough ([chunks_fuel_enough]). *)
Fixpoint chunks_fuel (fuel b : nat) (l : list A) : list (list A) :=
  match fuel with
  | 0 => []
  | S fuel' =>
      match l with
      | [] => []
      | x :: l' => (x :: take (b - 1) l') :: chunks_fuel fuel' b (drop (b - 1) l')
      end
  end.

(** Modelled from the spec: the batches of [l] for the batch size [b]. *)
Definition chunks (b : nat) (l : list A) : list (list A) :=
  chunks_fuel (length l) b l.

(** Modelled from the spec: [instancelib.utils.chunks.divide_iterable_in_lists]
    is imported, not defined, by the module. The spec has it partition the
    input into contiguous batches no larger than [batch_size], in the
    original order, for a positive [batch_size]; the model refuses any
    other [batch_size] with [ValueError] once a first element is there to
    be batched. *)
Definition divide_iterable_in_lists (iterable : list A) (batch_size : Z)
    : result (list (list A)) :=
  match iterable with
  | [] => Ok []
  | _ =>
      if (batch_size <? 1)%Z then Err ValueError
      else Ok (chunks (Z.to_nat batch_size) iterable)
  end.
End chunks.

(** Modelled from the spec: [instancelib.utils.func.zip_chain] is imported,
    not defined, by the module. The spec has the per-batch results, each a
    pair of a key list and a row-aligned list of decoded rows, concatenated
    in batch order; within a batch keys and rows are paired with [zip]. *)
Definition zip_chain {A B : Type} (pairs : list (list A * list B)) : list (A * B) :=
  concat ((λ p, zip (fst p) (snd p)) <$> pairs).

(** A generator, as its consumer sees it: the items yielded, and the
    exception that ended the iteration, if one did. *)
Definition generator (A : Type) : Type := (list A * option exn)%type.

(** [yield from map(f, xs)] *)
Fixpoint yield_from_map {A B : Type} (f : A → result B) (xs : list A) : generator B :=
  match xs with
  | [] => ([], None)
  | x :: xs' =>
      match f x with
      | Ok y => let '(ys, e) := yield_from_map f xs' in (y :: ys, e)
      | Err e => ([], Some e)
      end
  end.

(** [[(i, x) for i, x in enumerate(l)]] *)
Definition enumerate {A : Type} (l : list A) : list (nat * A) :=
  imap (λ i x, (i, x)) l.

Section encoder.
Context {LT : Type} `{Countable LT} {score : Type} `{Countable score}.

(** Modelled from the spec: [instancelib.labels.encoder.DictionaryEncoder]
    is imported, not defined, by the module. The spec has it hold the map
    from labels to column indices, answer the column of a label or fail
    with a [LookupError] for an unknown one, decode a column index into
    the set holding the label of that column, and decode a row of scores
    into the set of (label, score) pairs. *)
Record DictionaryEncoder : Type := { mapping : gmap LT nat }.

(** Modelled from the spec: the inverse dictionary [{column: label}] the
    encoder decodes with. *)
Definition inv_mapping (enc : DictionaryEncoder) : gmap nat LT :=
  list_to_map ((λ p, (snd p, fst p)) <$> map_to_list (mapping enc)).

(** Modelled from the spec: the current label set. *)
Definition labelset (enc : DictionaryEncoder) : gset LT := dom (mapping enc).

(** Modelled from the spec: [DictionaryEncoder.decode_vector] gives the
    set holding the label of a column; a column without a label is a
    failed dictionary lookup. *)
Definition decode_vector (enc : DictionaryEncoder) (column : nat) : result (gset LT) :=
  match inv_mapping enc !! column with
  | Some label => Ok {[ label ]}
  | None => Err KeyError
  end.

(** Modelled from the spec: [DictionaryEncoder.decode_matrix] decodes one
    column index per row. *)
Definition decode_matrix (enc : DictionaryEncoder) (columns : list nat)
    : result (list (gset LT)) :=
  traverse (decode_vector enc) columns.

(** Modelled from the spec: a row of scores is decoded into the set of
    (label, score) pairs, the score of a label being the one in its column. *)
Definition decode_proba_row (enc : DictionaryEncoder) (row : list score)
    : gset (LT * score) :=
  list_to_set (omap (λ p, (λ v, (fst p, v)) <$> row !! snd p)
                 (map_to_list (mapping enc))).

(** Modelled from the spec: [DictionaryEncoder.decode_proba_matrix]
    decodes every row. *)
Definition decode_proba_matrix (enc : DictionaryEncoder) (matrix : list (list score))
    : list (gset (LT * score)) :=
  decode_proba_row enc <$> matrix.

(** [{label: i for i, label in enumerate(labels)}]: a label that occurs
    again overwrites the index stored for it. *)
Definition label_dict (labels : list LT) : gmap LT nat :=
  foldl (λ d p, <[snd p := fst p]> d) ∅ (enumerate labels).

(** The column indices in use. *)
Definition columns (enc : DictionaryEncoder) : gset nat := map_img (mapping enc).

(** The columns in use are [0, 1, ..., n-1] for some [n]. *)
Definition contiguous_from_0 (enc : DictionaryEncoder) : Prop :=
  columns enc = set_seq 0 (size (columns enc)).
End encoder.
Arguments DictionaryEncoder LT {_ _}.

(** [DictionaryEncoder.get_label_column_index] is imported, not defined, by
    the module, and nothing in the module fixes what it answers: it is a
    parameter of the embedding. *)
Class EncoderLookup (LT : Type) `{Countable LT} : Type :=
  encoder_get_label_column_index : DictionaryEncoder LT → LT → result nat.

(** Modelled from the spec: what the spec has the encoder's lookup answer,
    the column index of a label of the encoder, and a [LookupError] for a
    label the encoder does not know. *)
Class EncoderLookupSpec (LT : Type) `{Countable LT} {lookup : EncoderLookup LT} : Prop := {
  lookup_known (enc : DictionaryEncoder LT) l i :
    mapping enc !! l = Some i → encoder_get_label_column_index enc l = Ok i;
  lookup_unknown (enc : DictionaryEncoder LT) l :
    mapping enc !! l = None →
    ∃ e, encoder_get_label_column_index enc l = Err e ∧ is_LookupError e = true
}.

(** ** The adapter *)

Section adapter.
Context {KT : Type} {DT : Type} {LT : Type} `{Countable LT}.
Context {score : Type} `{Countable score} `{ScoreLe score}.

(** [instancelib.Instance]: the adapter reads the identifier and the data. *)
Record Instance : Type := { identifier : KT; data : DT }.

(** [instancelib.InstanceProvider]: the adapter reads [values()]. *)
Record InstanceProvider : Type := { values : list Instance }.

Record DeterministicTextClassifier : Type := {
  predict_function : list DT → result (list (list score));
  encoder : DictionaryEncoder LT
}.

Definition set_target_labels (self : DeterministicTextClassifier) (labels : list LT)
    : DeterministicTextClassifier :=
  {| predict_function := predict_function self;
     encoder := {| mapping := label_dict labels |} |}.

(** [__init__]: store the function, then [set_target_labels]. *)
Definition init (predict_function : list DT → result (list (list score)))
    (target_labels : list LT) : DeterministicTextClassifier :=
  {| predict_function := predict_function;
     encoder := {| mapping := label_dict target_labels |} |}.

Definition batched_predict_function (predict_function : DT → result (list score))
    (instances : list DT) : result (list (list score)) :=
  rows ← traverse predict_function instances;
  np_vstack rows.

Definition from_callable (predict_function : DT → result (list score))
    (target_labels : list LT) : DeterministicTextClassifier :=
  init (batched_predict_function predict_function) target_labels.

Definition from_batched_callable
    (predict_function : list DT → result (list (list score)))
    (target_labels : list LT) : DeterministicTextClassifier :=
  init predict_function target_labels.

(** A method returns its value, or the exception, and the adapter as the
    call leaves it. *)
Definition fit_instances (self : DeterministicTextClassifier)
    (instances : list Instance) (labels : list (list LT))
    : result unit * DeterministicTextClassifier :=
  (Ok tt, self).

Definition fit_provider (self : DeterministicTextClassifier)
    (provider : InstanceProvider) (labels : list (KT * list LT)) (batch_size : Z)
    : result unit * DeterministicTextClassifier :=
  (Ok tt, self).

Definition _pred_proba_batch_raw (self : DeterministicTextClassifier)
    (batch : list Instance) : result (list KT * list (list score)) :=
  let x_keys := identifier <$> batch in
  let x_instances := data <$> batch in
  y_pred ← predict_function self x_instances;
  mret (x_keys, y_pred).

Definition _pred_proba_batch (self : DeterministicTextClassifier)
    (batch : list Instance) : result (list KT * list (gset (LT * score))) :=
  r ← _pred_proba_batch_raw self batch;
  mret (fst r, decode_proba_matrix (encoder self) (snd r)).

Definition _pred_batch (self : DeterministicTextClassifier)
    (batch : list Instance) : result (list KT * list (gset LT)) :=
  r ← _pred_proba_batch_raw self batch;
  idx ← np_argmax_axis1 (snd r);
  decoded ← decode_matrix (encoder self) idx;
  mret (fst r, decoded).

Definition fitted (self : DeterministicTextClassifier) : bool := true.

(** [str(self.__class__.__name__)] *)
Definition name (self : DeterministicTextClassifier) : string :=
  "DeterministicTextClassifier".

Context {lookup : EncoderLookup LT}.

(** [self.encoder.get_label_column_index(label)], the encoder's method
    being the parameter [lookup]. *)
Definition get_label_column_index (self : DeterministicTextClassifier) (label : LT)
    : result nat :=
  encoder_get_label_column_index (encoder self) label.

Definition predict_proba_instances_raw (self : DeterministicTextClassifier)
    (instances : list Instance) (batch_size : Z)
    : generator (list KT * list (list score)) :=
  match divide_iterable_in_lists instances batch_size with
  | Ok batches => yield_from_map (_pred_proba_batch_raw self) batches
  | Err e => ([], Some e)
  end.

Definition predict_proba_instances (self : DeterministicTextClassifier)
    (instances : list Instance) (batch_size : Z)
    : result (list (KT * gset (LT * score))) :=
  batches ← divide_iterable_in_lists instances batch_size;
  processed ← traverse (_pred_proba_batch self) batches;
  mret (zip_chain processed).

Definition predict_instances (self : DeterministicTextClassifier)
    (instances : list Instance) (batch_size : Z)
    : result (list (KT * gset LT)) :=
  batches ← divide_iterable_in_lists instances batch_size;
  processed ← traverse (_pred_batch self) batches;
  mret (zip_chain processed).

Definition predict_provider (self : DeterministicTextClassifier)
    (provider : InstanceProvider) (batch_size : Z) :=
  predict_instances self (values provider) batch_size.

Definition predict_proba_provider_raw (self : DeterministicTextClassifier)
    (provider : InstanceProvider) (batch_size : Z) :=
  predict_proba_instances_raw self (values provider) batch_size.

Definition predict_proba_provider (self : DeterministicTextClassifier)
    (provider : InstanceProvider) (batch_size : Z) :=
  predict_proba_instances self (values provider) batch_size.

(** *** Conditions on the injected prediction function *)

(** The prediction function returns one row per instance. *)
Definition one_row_per_instance (self : DeterministicTextClassifier) : Prop :=
  ∀ xs m, predict_function self xs = Ok m → length m = length xs.

(** The prediction function returns normally on every non-empty batch. *)
Definition returns_normally (self : DeterministicTextClassifier) : Prop :=
  ∀ xs, xs ≠ [] → ∃ m, predict_function self xs = Ok m.

(** Every row the prediction function returns has a column, and each of
    its columns is the column of a label. *)
Definition rows_decodable (self : DeterministicTextClassifier) : Prop :=
  ∀ xs m, predict_function self xs = Ok m →
    Forall (λ row, row ≠ [] ∧
                   ∀ c, (c < length row)%nat → c ∈ columns (encoder self)) m.

(** The set a row is decoded into by [_pred_batch]. *)
Definition decodes_row (self : DeterministicTextClassifier) (row : list score) (s : gset LT) : Prop :=
  ∃ c l, np_argmax_row row = Ok c ∧
         inv_mapping (encoder self) !! c = Some l ∧ s = {[ l ]}.

(** The prediction function scores each instance by itself: on every
    non-empty batch it returns the rows [g x] of the instances [x]. *)
Definition scores_each_instance (self : DeterministicTextClassifier)
    (g : DT → list score) : Prop :=
  ∀ xs, xs ≠ [] → predict_function self xs = Ok (g <$> xs).

(** The entry [predict_instances] returns for the instance [x] when its
    row is [g (data x)]. *)
Definition predicts_one (self : DeterministicTextClassifier) (g : DT → list score)
    (x : Instance) (r : KT * gset LT) : Prop :=
  fst r = identifier x ∧ decodes_row self (g (data x)) (snd r).
End adapter.
Arguments Instance : clear implicits.
Arguments InstanceProvider : clear implicits.
Arguments DeterministicTextClassifier DT LT {_ _} score.

(** ** The module's test fixtures *)

(** Scores of the fixtures are rationals, compared as such. *)
#[global] Instance Qc_score_le : ScoreLe Qc := λ x y, Qle_bool x y.

(** The characters [predict_fn] looks for: an exclamation mark, a double
    quote (character 34), the punctuation that follows, and the letters a
    and A. *)
Definition predict_fn_marks : list ascii :=
  list_ascii_of_string
    ("!" ++ String (ascii_of_nat 34) "#$%&()*+,-./:;<=>?@[^_`~aA").

(** [any(c in instance for c in marks)] *)
Definition any_in (marks : list ascii) (instance : string) : bool :=
  existsb (λ c, bool_decide (c ∈ list_ascii_of_string instance)) marks.

(** The array [predict_fn] returns: [[0.7, 0.3]] or [[0.3, 0.7]]. *)
Definition predict_fn_scores (instance : string) : list Qc :=
  if any_in predict_fn_marks instance
  then [Q2Qc (7 # 10); Q2Qc (3 # 10)]
  else [Q2Qc (3 # 10); Q2Qc (7 # 10)].

Definition predict_fn (instance : string) : result (list Qc) :=
  Ok (predict_fn_scores instance).

Definition TEST_MODEL : DeterministicTextClassifier string string Qc :=
  from_callable predict_fn ["punctuation"; "no_punctuation"].

(** A batched prediction function of the shape [from_batched_callable]
    accepts, with one row per instance and one column per label, whose
    scores depend on how many instances the batch holds. *)
Definition batch_aware_fn (instances : list string) : result (list (list Qc)) :=
  Ok ((λ _, if (length instances =? 1)%nat
            then [Q2Qc 1; Q2Qc 0]
            else [Q2Qc 0; Q2Qc 1]) <$> instances).

Definition BATCH_AWARE_MODEL : DeterministicTextClassifier string string Qc :=
  from_batched_callable batch_aware_fn ["punctuation"; "no_punctuation"].

(** A prediction function that raises on every batch. *)
Definition raising_fn (instances : list string) : result (list (list Qc)) :=
  Err (Raised "unavailable").

Definition RAISING_MODEL : DeterministicTextClassifier string string Qc :=
  from_batched_callable raising_fn ["punctuation"; "no_punctuation"].

(** Instances numbered from 0, as [TextEnvironment.from_data] numbers them. *)
Definition instances_of (texts : list string) : list (Instance nat string) :=
  (λ p, {| identifier := fst p; data := snd p |}) <$> enumerate texts.

(** An encoder lookup that answers as the spec has it, for the examples:
    the lookup of the encoder's dictionary, which raises [KeyError]. *)
Definition dict_lookup : EncoderLookup string :=
  λ enc label,
    match mapping enc !! label with
    | Some i => Ok i
    | None => Err KeyError
    end.

(** A per-instance prediction function that raises on one text. *)
Definition picky_fn (instance : string) : result (list Qc) :=
  if String.eqb instance "z"
  then Err (Raised "unsupported")
  else Ok [Q2Qc 1; Q2Qc 0].

Definition PICKY_MODEL : DeterministicTextClassifier string string Qc :=
  from_callable picky_fn ["punctuation"; "no_punctuation"].

(** A per-instance prediction function whose score vectors differ in
    length: one score per character of the text. *)
Definition ragged_fn (instance : string) : result (list Qc) :=
  Ok (replicate (String.length instance) (Q2Qc 1)).

(** A batched prediction function that returns a matrix without columns. *)
Definition no_column_fn (instances : list string) : result (list (list Qc)) :=
  Ok ((λ _, []) <$> instances).

Definition NO_COLUMN_MODEL : DeterministicTextClassifier string string Qc :=
  from_batched_callable no_column_fn ["punctuation"; "no_punctuation"].

(** The label [TEST_MODEL] is built to predict for a text. *)
Definition expected_label (instance : string) : string :=
  if any_in predict_fn_marks instance then "punctuation" else "no_punctuation".

(** * Properties *)

(** ** The result monad *)

Lemma traverse_Ok_Forall2 {A B : Type} (f : A → result B) xs ys :
  traverse f xs = Ok ys ↔ Forall2 (λ x y, f x = Ok y) xs ys.
Proof.
  revert ys. induction xs as [|x xs IH]; intros ys; simpl.
  - split.
    + intros [= <-]. constructor.
    + intros Hf. by inversion Hf.
  - unfold mbind, result_bind, mret, result_ret.
    destruct (f x) as [y|e] eqn:Hx.
    + destruct (traverse f xs) as [ys'|e] eqn:Hxs.
      * split.
        -- intros [= <-]. constructor; [done | by apply IH].
        -- intros Hf. inversion Hf as [|? y' ? ys'' Hy Hys]; subst.
           apply IH in Hys. congruence.
      * split; [done |].
        intros Hf. inversion Hf as [|? y' ? ys'' Hy Hys]; subst.
        apply IH in Hys. congruence.
    + split; [done |].
      intros Hf. inversion Hf; congruence.
Qed.

Lemma traverse_ext_Forall {A B : Type} (f g : A → result B) xs :
  Forall (λ x, f x = g x) xs → traverse f xs = traverse g xs.
Proof.
  induction 1 as [|x xs Hx _ IH]; simpl; [done |]. by rewrite Hx, IH.
Qed.

Lemma traverse_total {A B : Type} (f : A → result B) xs :
  Forall (λ x, ∃ y, f x = Ok y) xs → ∃ ys, traverse f xs = Ok ys.
Proof.
  induction 1 as [|x xs [y Hy] _ [ys IH]]; simpl.
  - by exists [].
  - exists (y :: ys). by rewrite Hy, IH.
Qed.

Lemma traverse_Err_inv {A B : Type} (f : A → result B) xs e :
  traverse f xs = Err e → ∃ x, x ∈ xs ∧ f x = Err e.
Proof.
  induction xs as [|x xs IH]; simpl; [done |].
  unfold mbind, result_bind.
  destruct (f x) as [y|e'] eqn:Hx.
  - destruct (traverse f xs) as [ys|e'']; [done |].
    intros [= ->]. destruct IH as (x' & ? & ?); [done |].
    exists x'. split; [by right | done].
  - intros [= ->]. exists x. split; [by left | done].
Qed.

(** ** The random module *)

Module RandomFacts.
Import Random.

Lemma _randbelow_lt n g :
  (0 < n)%nat → ∃ j, _randbelow n g = (Ok j, λ i, g (S i)) ∧ (j < n)%nat.
Proof.
  intros Hn. exists (g 0 mod n)%nat. split; [done |].
  apply Nat.mod_upper_bound. lia.
Qed.

Lemma choice_elem_of {A : Type} (seq : list A) g :
  seq ≠ [] → ∃ x g', choice seq g = (Ok x, g') ∧ x ∈ seq.
Proof.
  intros Hne. destruct seq as [|a seq']; [done |].
  destruct (_randbelow_lt (length (a :: seq')) g) as (j & Hj & Hlt);
    [simpl; lia |].
  unfold choice, bind. rewrite Hj.
  destruct (lookup_lt_is_Some_2 (a :: seq') j Hlt) as [x Hx]. rewrite Hx.
  exists x, (λ i, g (S i)). split; [done |].
  by eapply list_elem_of_lookup_2.
Qed.

(** One step of the selection loop moves the chosen element out of the
    live prefix and keeps the rest of it. *)
Lemma pool_step_Permutation {A : Type} (pool : list A) m j x y :
  (j < m)%nat → pool !! j = Some x → pool !! (m - 1)%nat = Some y →
  x :: take (m - 1) (<[j:=y]> pool) ≡ₚ take m pool.
Proof.
  intros Hjm Hx Hy.
  replace m with (S (m - 1)) at 2 by lia.
  rewrite (take_S_r pool (m - 1) y Hy).
  destruct (decide (j = m - 1)%nat) as [->|Hne].
  - assert (x = y) as -> by congruence.
    rewrite list_insert_id by done.
    by rewrite Permutation_cons_append.
  - rewrite take_insert_lt by lia.
    set (t := take (m - 1) pool).
    assert (t !! j = Some x) as Ht.
    { unfold t. rewrite lookup_take_lt by lia. done. }
    rewrite insert_take_drop by (eapply lookup_lt_Some; exact Ht).
    rewrite <- (take_drop_middle t j x Ht) at 3.
    rewrite <- app_assoc. simpl.
    etrans; [apply Permutation_middle |].
    apply Permutation_app_head, perm_skip, Permutation_cons_append.
Qed.

Lemma sample_loop_spec {A : Type} k : ∀ m (pool : list A) g,
  (k ≤ m)%nat → (m ≤ length pool)%nat → NoDup (take m pool) →
  ∃ r g', sample_loop k m pool g = (Ok r, g') ∧
          length r = k ∧ NoDup r ∧ r ⊆ take m pool.
Proof.
  induction k as [|k IH]; intros m pool g Hk Hm Hnd.
  - exists [], g. repeat split; [constructor | set_solver].
  - simpl. unfold bind at 1.
    destruct (_randbelow_lt m g) as (j & Hj & Hlt); [lia |].
    rewrite Hj.
    destruct (lookup_lt_is_Some_2 pool j) as [x Hx]; [lia |].
    destruct (lookup_lt_is_Some_2 pool (m - 1)) as [y Hy]; [lia |].
    rewrite Hx, Hy.
    pose proof (pool_step_Permutation pool m j x y Hlt Hx Hy) as Hperm.
    assert (NoDup (x :: take (m - 1) (<[j:=y]> pool))) as Hnd'.
    { by rewrite Hperm. }
    apply NoDup_cons in Hnd' as [Hnotin Hnd'].
    destruct (IH (m - 1)%nat (<[j:=y]> pool) (λ i, g (S i)))
      as (r & g' & Hr & Hlen & Hndr & Hsub);
      [lia | rewrite length_insert; lia | done |].
    exists (x :: r), g'. unfold bind. rewrite Hr.
    split; [done |]. split; [simpl; lia |]. split.
    + apply NoDup_cons. split; [| done].
      intros Hin. apply Hnotin, Hsub, Hin.
    + intros z Hz. rewrite <- Hperm.
      apply elem_of_cons in Hz as [->|Hz]; [by left |].
      right. by apply Hsub.
Qed.

(** [random.sample(range(n), k)] for [k <= n]: [k] distinct indices
    below [n]. *)
Lemma sample_range_spec n k g :
  (k ≤ n)%nat →
  ∃ idx g', sample (seq 0 n) k g = (Ok idx, g') ∧
            length idx = k ∧ NoDup idx ∧ Forall (λ i, i < n)%nat idx.
Proof.
  intros Hk. unfold sample. rewrite length_seq.
  destruct (decide (k ≤ n)%nat); [| lia].
  destruct (sample_loop_spec k n (seq 0 n) g)
    as (r & g' & Hr & Hlen & Hnd & Hsub); [done | by rewrite length_seq | |].
  { rewrite take_ge by (rewrite length_seq; lia). apply NoDup_seq. }
  exists r, g'. repeat split; try done.
  apply Forall_forall. intros i Hi. apply Hsub in Hi.
  rewrite take_ge in Hi by (rewrite length_seq; lia).
  apply elem_of_seq in Hi. lia.
Qed.

Lemma for_each_spec {A B : Type} (f : A → rand B) (P : A → B → Prop) xs :
  (∀ x g, x ∈ xs → ∃ y g', f x g = (Ok y, g') ∧ P x y) →
  ∀ g, ∃ ys g', for_each f xs g = (Ok ys, g') ∧ Forall2 P xs ys.
Proof.
  induction xs as [|x xs IH]; intros Hf g.
  - exists [], g. split; [done | constructor].
  - destruct (Hf x g) as (y & g1 & Hy & HP); [by left |].
    destruct (IH (λ x' g' Hin, Hf x' g' (list_elem_of_further _ _ _ Hin)) g1)
      as (ys & g2 & Hys & HPs).
    exists (y :: ys), g2. simpl. unfold bind. rewrite Hy, Hys.
    split; [done | by constructor].
Qed.
End RandomFacts.

(** ** Fixture utilities *)

Section utilities.
Import Random RandomFacts.


(** [corrupt_one] never raises: it puts one character of the alphabet in
    front of the name. *)
Lemma corrupt_one_spec name g :
  ∃ c g', corrupt_one name g = (Ok (String c name), g') ∧ c ∈ alphabet.
Proof.
  destruct (choice_elem_of alphabet g) as (c & g' & Hc & Hin); [done |].
  exists c, g'. unfold corrupt_one, bind. fold alphabet. by rewrite Hc.
Qed.

Lemma sorted_Permutation xs : sorted xs ≡ₚ xs.
Proof. apply merge_sort_Permutation. Qed.

(** Sorting distinct integers gives a strictly increasing list. *)
Lemma sorted_NoDup_lt xs : NoDup xs → StronglySorted lt (sorted xs).
Proof.
  intros Hnd.
  assert (NoDup (sorted xs)) as Hnd' by (by rewrite sorted_Permutation).
  pose proof (StronglySorted_merge_sort Nat.le xs) as Hs. fold (sorted xs) in Hs.
  induction Hs as [|x l Hs IH Hall]; [constructor |].
  apply NoDup_cons in Hnd' as [Hnotin Hnd'].
  constructor; [by apply IH |].
  apply Forall_forall. intros y Hy.
  rewrite Forall_forall in Hall. specialize (Hall y Hy).
  assert (x ≠ y) by (intros ->; done). unfold Nat.le in Hall. lia.
Qed.

(** Reading a sequence at strictly increasing positions gives a
    subsequence of it. [o] is the position of the head of [pool]. *)
Lemma traverse_getitem_sublist {A : Type} (pool : list A) : ∀ o idx,
  StronglySorted lt idx →
  Forall (λ i, o ≤ i < o + length pool)%nat idx →
  ∃ c, traverse (λ i, getitem pool (i - o)) idx = Ok c ∧
       length c = length idx ∧ c `sublist_of` pool.
Proof.
  induction pool as [|a pool IH]; intros o idx Hs Hb.
  - destruct idx as [|i idx].
    + exists []. by repeat split.
    + apply Forall_cons in Hb as [Hi _]. simpl in Hi. lia.
  - destruct idx as [|i idx].
    { exists []. repeat split. apply sublist_nil_l. }
    apply StronglySorted_inv in Hs as [Hs Hgt].
    apply Forall_cons in Hb as [Hi Hb]. simpl in Hi.
    assert (Forall (λ i', S o ≤ i' < S o + length pool)%nat idx) as Hb'.
    { rewrite Forall_forall in Hb, Hgt. apply Forall_forall.
      intros i' Hi'. specialize (Hb i' Hi'). specialize (Hgt i' Hi').
      simpl in Hb. lia. }
    assert (∀ l : list nat, Forall (λ i', S o ≤ i')%nat l →
      traverse (λ i', getitem (a :: pool) (i' - o)) l
      = traverse (λ i', getitem pool (i' - S o)) l) as Hshift.
    { intros l Hl. apply traverse_ext_Forall.
      eapply Forall_impl; [exact Hl |]. intros i' Hi'. simpl in Hi'.
      unfold getitem. by replace (i' - o)%nat with (S (i' - S o)) by lia. }
    destruct (decide (i = o)) as [->|Hne].
    + destruct (IH (S o) idx Hs Hb') as (c & Hc & Hlen & Hsub).
      exists (a :: c). simpl. unfold getitem at 1.
      rewrite Nat.sub_diag. simpl.
      rewrite Hshift, Hc.
      2:{ eapply Forall_impl; [exact Hb' |]. simpl. lia. }
      repeat split; [simpl; lia | by apply sublist_skip].
    + destruct (IH (S o) (i :: idx)) as (c & Hc & Hlen & Hsub).
      { by constructor. }
      { constructor; [lia | done]. }
      exists c. rewrite Hshift, Hc.
      2:{ constructor; [lia |]. eapply Forall_impl; [exact Hb' |]. simpl. lia. }
      repeat split; [done | by apply sublist_cons].
Qed.

(** One combination of size [r <= len(pool)]: never raises, has [r]
    elements, and is a subsequence of the pool. *)
Lemma random_combination_spec {A : Type} (pool : list A) r g :
  (r ≤ length pool)%nat →
  ∃ c g', random_combination pool r g = (Ok c, g') ∧
          length c = r ∧ c `sublist_of` pool.
Proof.
  intros Hr.
  destruct (sample_range_spec (length pool) r g Hr)
    as (idx & g' & Hidx & Hlen & Hnd & Hlt).
  destruct (traverse_getitem_sublist pool 0 (sorted idx))
    as (c & Hc & Hclen & Hsub).
  { by apply sorted_NoDup_lt. }
  { rewrite sorted_Permutation. eapply Forall_impl; [exact Hlt |].
    simpl. lia. }
  exists c, g'. unfold random_combination, bind, lift. rewrite Hidx.
  erewrite traverse_ext_Forall; [rewrite Hc |].
  - repeat split; [| done].
    rewrite Hclen, <- Hlen. by rewrite sorted_Permutation.
  - apply Forall_forall. intros i _. simpl. by rewrite Nat.sub_0_r.
Qed.

Lemma clamp_start_spec_clamp len start :
  Z.of_nat (clamp_start len start) = spec_clamp start 0 (Z.of_nat len).
Proof.
  unfold clamp_start, spec_clamp.
  destruct (Z.ltb_spec start 0), (Z.ltb_spec (Z.of_nat len) start); lia.
Qed.
End utilities.

(** Given a single string, [corrupt] takes the iterable branch, because a
    [str] is an [Iterable]: it returns a list with one entry per character
    of the string, each entry that character with one character of the
    alphabet in front. *)
Lemma corrupt_str_iterates (s : string) (g : Random.rng) :
  ∃ l, fst (corrupt (a_str s) g) = Ok (r_list l) ∧
       Forall2 (λ ch out, ∃ c, c ∈ alphabet ∧ out = String c (String ch EmptyString))
         (list_ascii_of_string s) l.
Proof.
  unfold corrupt. simpl.
  destruct (RandomFacts.for_each_spec corrupt_one
              (λ name out, ∃ c, c ∈ alphabet ∧ out = String c name)
              ((λ c, String c EmptyString) <$> list_ascii_of_string s)) with (g := g)
    as (l & g' & Hl & HP).
  { intros name g0 _. destruct (corrupt_one_spec name g0) as (c & g1 & Hc & Hin).
    exists (String c name), g1. split; [done |]. by exists c. }
  exists l. unfold Random.bind. rewrite Hl. split; [done |].
  by apply Forall2_fmap_l in HP.
Qed.

(** C1, at the input of the specification: whatever the random draws,
    [corrupt] given the string abc returns no string of four characters
    ending in abc, but a list of three strings of two characters, the
    characters a, b and c, each with one character of the 36-character
    alphabet in front. *)
Theorem corrupt_abc_returns_list (g : Random.rng) :
  ∃ c1 c2 c3,
    fst (corrupt (a_str "abc") g) = Ok (r_list [String c1 "a"; String c2 "b"; String c3 "c"]) ∧
    c1 ∈ alphabet ∧ c2 ∈ alphabet ∧ c3 ∈ alphabet ∧
    ∀ s, fst (corrupt (a_str "abc") g) ≠ Ok (r_str s).
Proof.
  destruct (corrupt_str_iterates "abc" g) as (l & Hl & HF).
  simpl in HF.
  apply Forall2_cons_inv_l in HF as (o1 & l1 & (c1 & H1 & ->) & HF & ->).
  apply Forall2_cons_inv_l in HF as (o2 & l2 & (c2 & H2 & ->) & HF & ->).
  apply Forall2_cons_inv_l in HF as (o3 & l3 & (c3 & H3 & ->) & HF & ->).
  apply Forall2_nil_inv_l in HF as ->.
  exists c1, c2, c3. repeat split; try done.
  intros s. by rewrite Hl.
Qed.

(** At the input of the specification's example the result is a list of
    three two-character strings. *)
Example corrupt_abc_run :
  fst (corrupt (a_str "abc") (λ i, 10 * i + 3)%nat) = Ok (r_list ["da"; "nb"; "xc"]).
Proof. reflexivity. Qed.

(** C6: for every finite sequence [items] and every integer [start],
    [random_combinations items start] returns, without raising, one
    combination for each size from [clamp(start, 0, len(items))] to
    [len(items)], in increasing order of size, each a subsequence of [items]
    (distinct positions, in the original order); and
    [random_combinations([], 1)] is [[[]]]. *)
Theorem random_combinations_spec {A : Type} (items : list A) (start : Z)
    (g : Random.rng) :
  (∃ combos g' first,
     random_combinations items start g = (Ok combos, g') ∧
     Z.of_nat first = spec_clamp start 0 (Z.of_nat (length items)) ∧
     length <$> combos = seq first (length items + 1 - first) ∧
     Forall (λ c, c `sublist_of` items) combos) ∧
  fst (random_combinations (@nil A) 1 g) = Ok [[]].
Proof.
  split; [| reflexivity].
  unfold random_combinations, range.
  set (first := clamp_start (length items) start).
  destruct (RandomFacts.for_each_spec (random_combination items)
              (λ r c, length c = r ∧ c `sublist_of` items)
              (seq first (length items + 1 - first))) with (g := g)
    as (combos & g' & Hrun & HP).
  { intros r g0 Hr. apply elem_of_seq in Hr.
    apply random_combination_spec. lia. }
  exists combos, g', first. split; [done |].
  split; [apply clamp_start_spec_clamp |]. split.
  - clear Hrun. induction HP as [|r c rs cs [Hlen _] _ IH]; [done |].
    simpl. by rewrite Hlen, <- IH.
  - clear Hrun. induction HP as [|r c rs cs [_ Hsub] _ IH]; by constructor.
Qed.

Example random_combinations_run :
  fst (random_combinations [1; 2; 3]%nat 1 (λ i, i + 1)%nat)
  = Ok [[2]; [2; 3]; [1; 2; 3]]%nat.
Proof. vm_compute. reflexivity. Qed.

(** ** Batching *)

Section chunks_facts.
Context {A : Type}.
Implicit Types (l : list A) (b : nat).

Lemma chunks_fuel_enough b : ∀ f1 f2 l,
  (length l ≤ f1)%nat → (length l ≤ f2)%nat →
  chunks_fuel f1 b l = chunks_fuel f2 b l.
Proof.
  induction f1 as [|f1 IH]; intros f2 l H1 H2.
  - destruct l; [| simpl in H1; lia]. by destruct f2.
  - destruct l as [|x l]; [by destruct f2 |].
    destruct f2 as [|f2]; [simpl in H2; lia |].
    simpl in *. f_equal. apply IH; rewrite length_drop; lia.
Qed.

Lemma chunks_nil b : chunks b (@nil A) = [].
Proof. reflexivity. Qed.

(** The equation of [divide_iterable]: the first batch is the first
    element and the next [b - 1]; the rest is batched the same way. *)
Lemma chunks_cons b x l :
  chunks b (x :: l) = (x :: take (b - 1) l) :: chunks b (drop (b - 1) l).
Proof.
  unfold chunks. simpl. f_equal.
  apply chunks_fuel_enough; rewrite ?length_drop; lia.
Qed.

Lemma chunks_ind b (P : list A → list (list A) → Prop) :
  P [] [] →
  (∀ x l, P (drop (b - 1) l) (chunks b (drop (b - 1) l)) →
          P (x :: l) ((x :: take (b - 1) l) :: chunks b (drop (b - 1) l))) →
  ∀ l, P l (chunks b l).
Proof.
  intros Hnil Hcons l.
  remember (length l) as n eqn:Hn. revert l Hn.
  induction (lt_wf n) as [n _ IH]. intros l ->.
  destruct l as [|x l]; [done |].
  rewrite chunks_cons. apply Hcons.
  apply (IH (length (drop (b - 1) l))); [| done].
  rewrite length_drop. simpl. lia.
Qed.

(** Batching drops and reorders nothing. *)
Lemma concat_chunks b l : concat (chunks b l) = l.
Proof.
  apply (chunks_ind b (λ l cs, concat cs = l)); [done |].
  intros x l' IH. simpl. by rewrite IH, take_drop.
Qed.

Lemma chunks_Forall b l :
  (1 ≤ b)%nat → Forall (λ c, c ≠ [] ∧ (length c ≤ b)%nat) (chunks b l).
Proof.
  intros Hb. apply (chunks_ind b (λ _ cs, Forall _ cs)); [constructor |].
  intros x l' IH. constructor; [| done].
  split; [done |]. simpl. rewrite length_take. lia.
Qed.

(** There are [ceil(n / b)] batches. *)
Lemma length_chunks b l :
  (1 ≤ b)%nat → length (chunks b l) = ((length l + b - 1) / b)%nat.
Proof.
  intros Hb.
  apply (chunks_ind b (λ l cs, length cs = ((length l + b - 1) / b)%nat)).
  - simpl. symmetry. apply Nat.div_small. lia.
  - intros x l' IH. cbn [length]. rewrite IH, length_drop.
    destruct (decide (b - 1 ≤ length l')%nat) as [Hle|Hgt].
    + replace (length l' - (b - 1) + b - 1)%nat with (length l') by lia.
      replace (S (length l') + b - 1)%nat with (length l' + 1 * b)%nat by lia.
      rewrite Nat.div_add by lia. lia.
    + replace (length l' - (b - 1) + b - 1)%nat with (b - 1)%nat by lia.
      rewrite (Nat.div_small (b - 1) b) by lia.
      apply (Nat.div_unique _ _ _ (S (length l') - 1)); lia.
Qed.

(** Batch number [q] is the slice [[q*b : q*b + b]] of the input. *)
Lemma chunks_lookup b l q c :
  (1 ≤ b)%nat → chunks b l !! q = Some c → c = take b (drop (q * b) l).
Proof.
  intros Hb. revert q c.
  apply (chunks_ind b (λ l cs, ∀ q c, cs !! q = Some c → c = take b (drop (q * b) l)));
    [done |].
  intros x l' IH [|q] c Hq; simpl in Hq.
  - injection Hq as <-. simpl.
    by replace b with (S (b - 1)) at 2 by lia.
  - apply IH in Hq as ->. rewrite drop_drop.
    replace (S q * b)%nat with (S (b - 1 + q * b)) by lia. done.
Qed.
End chunks_facts.

(** ** numpy *)

Section numpy_facts.
Context {score : Type} `{ScoreLeLaws score}.

Lemma score_le_refl (x : score) : score_le x x = true.
Proof. by destruct (score_le_total x x). Qed.

(** The scan keeps the first maximum of what it has seen: [pre] is the
    part of the row already scanned, [best] its first maximum. *)
Lemma argmax_scan_spec (row : list score) : ∀ pre best best_i,
  pre !! best_i = Some best →
  (∀ j w, pre !! j = Some w → score_le w best = true) →
  (∀ j w, (j < best_i)%nat → pre !! j = Some w → score_le best w = false) →
  is_first_argmax (pre ++ row) (argmax_scan best best_i (length pre) row).
Proof.
  induction row as [|x row IH]; intros pre best best_i Hbest Hmax Hfirst.
  - rewrite app_nil_r. by exists best.
  - simpl. replace (pre ++ x :: row) with ((pre ++ [x]) ++ row)
      by (by rewrite <- app_assoc).
    replace (S (length pre)) with (length (pre ++ [x]))
      by (rewrite length_app; simpl; lia).
    destruct (score_le x best) eqn:Hx.
    + apply IH.
      * by apply lookup_app_l_Some.
      * intros j w Hj. apply lookup_app_Some in Hj as [Hj|[_ Hj]]; [by eapply Hmax |].
        apply list_lookup_singleton_Some in Hj as [_ <-]. done.
      * intros j w Hlt Hj. apply lookup_app_Some in Hj as [Hj|[Hge Hj]];
          [by eapply Hfirst |].
        apply lookup_lt_Some in Hbest. lia.
    + assert (score_le best x = true) as Hbx.
      { destruct (score_le_total best x); [done | congruence]. }
      apply IH.
      * rewrite lookup_app_r by lia. by rewrite Nat.sub_diag.
      * intros j w Hj. apply lookup_app_Some in Hj as [Hj|[_ Hj]].
        -- eapply score_le_trans; [by eapply Hmax | done].
        -- apply list_lookup_singleton_Some in Hj as [_ <-]. apply score_le_refl.
      * intros j w Hlt Hj. apply lookup_app_Some in Hj as [Hj|[Hge Hj]]; [| lia].
        destruct (score_le x w) eqn:Hxw; [| done].
        rewrite (score_le_trans x w best Hxw (Hmax j w Hj)) in Hx. done.
Qed.

(** [np.argmax] of a non-empty row is the first column holding a maximum. *)
Lemma np_argmax_row_spec (row : list score) c :
  np_argmax_row row = Ok c → is_first_argmax row c.
Proof.
  destruct row as [|x row]; [done |]. intros [= <-].
  apply (argmax_scan_spec row [x] x 0%nat); [done | |].
  - intros [|j] w Hj; [| done]. injection Hj as <-. apply score_le_refl.
  - intros j w Hlt. lia.
Qed.


Lemma is_first_argmax_lt (row : list score) c :
  is_first_argmax row c → (c < length row)%nat.
Proof. intros (v & Hv & _). by eapply lookup_lt_Some. Qed.
End numpy_facts.

(** ** The label encoder *)

Section encoder_facts.
Context {LT : Type} `{Countable LT}.
Implicit Types (labels : list LT) (enc : DictionaryEncoder LT).

Lemma enumerate_snoc labels x :
  enumerate (labels ++ [x]) = enumerate labels ++ [(length labels, x)].
Proof.
  unfold enumerate. rewrite imap_app. simpl. by rewrite Nat.add_0_r.
Qed.

Lemma label_dict_snoc labels x :
  label_dict (labels ++ [x]) = <[x := length labels]> (label_dict labels).
Proof. unfold label_dict. by rewrite enumerate_snoc, foldl_app. Qed.

(** A label is stored with a position at which it occurs. *)
Lemma label_dict_lookup_Some labels l i :
  label_dict labels !! l = Some i → labels !! i = Some l.
Proof.
  revert i. induction labels as [|x labels IH] using rev_ind; intros i.
  - unfold label_dict. simpl. by rewrite lookup_empty.
  - rewrite label_dict_snoc, lookup_insert. case_decide as Hx.
    + intros [= <-]. subst. rewrite lookup_app_r by lia.
      by rewrite Nat.sub_diag.
    + intros Hi. apply lookup_app_l_Some. by apply IH.
Qed.

(** Exactly the labels supplied are stored. *)
Lemma label_dict_is_Some labels l :
  is_Some (label_dict labels !! l) ↔ l ∈ labels.
Proof.
  induction labels as [|x labels IH] using rev_ind.
  - unfold label_dict. simpl. rewrite lookup_empty. split.
    + by intros [? ?].
    + by intros ?%elem_of_nil.
  - rewrite label_dict_snoc, lookup_insert, elem_of_app, list_elem_of_singleton.
    case_decide as Hx.
    + split; [intros _; by right | by eexists].
    + rewrite IH. split; [by left | intros [?|?]; [done | congruence]].
Qed.

(** Without repeated labels, every label is stored with its position. *)
Lemma label_dict_NoDup labels l i :
  NoDup labels → labels !! i = Some l → label_dict labels !! l = Some i.
Proof.
  intros Hnd Hi.
  destruct (proj2 (label_dict_is_Some labels l)) as [j Hj].
  { by eapply list_elem_of_lookup_2. }
  rewrite Hj. f_equal.
  apply label_dict_lookup_Some in Hj.
  by eapply NoDup_lookup.
Qed.

Lemma inv_mapping_Some enc c l :
  inv_mapping enc !! c = Some l → mapping enc !! l = Some c.
Proof.
  unfold inv_mapping. intros Hc%elem_of_list_to_map_2.
  apply list_elem_of_fmap in Hc as ([l' c'] & [= -> ->] & Hin).
  by apply elem_of_map_to_list in Hin.
Qed.

Lemma inv_mapping_is_Some enc c :
  is_Some (inv_mapping enc !! c) ↔ c ∈ columns enc.
Proof.
  unfold columns. rewrite elem_of_map_img. split.
  - intros [l Hl]. exists l. by apply inv_mapping_Some.
  - intros [l Hl]. apply not_eq_None_Some. unfold inv_mapping.
    rewrite <- not_elem_of_list_to_map. intros Hnot. apply Hnot.
    apply list_elem_of_fmap. exists (c, l). split; [done |].
    apply list_elem_of_fmap. exists (l, c). split; [done |].
    by apply elem_of_map_to_list.
Qed.

(** Decoding a column gives the one-label set of a label stored with
    that column. *)
Lemma decode_vector_Ok enc c s :
  decode_vector enc c = Ok s ↔ ∃ l, inv_mapping enc !! c = Some l ∧ s = {[ l ]}.
Proof.
  unfold decode_vector. destruct (inv_mapping enc !! c) as [l|].
  - split; [intros [= <-]; by exists l | by intros (? & [= <-] & ->)].
  - split; [done | by intros (? & ? & _)].
Qed.

Lemma columns_label_dict_NoDup labels :
  NoDup labels →
  columns {| mapping := label_dict labels |} = set_seq 0 (length labels).
Proof.
  intros Hnd. apply set_eq. intros c.
  unfold columns. simpl. rewrite elem_of_map_img, elem_of_set_seq. split.
  - intros [l Hl%label_dict_lookup_Some]. apply lookup_lt_Some in Hl. lia.
  - intros [_ Hc]. destruct (lookup_lt_is_Some_2 labels c) as [l Hl]; [lia |].
    exists l. by apply label_dict_NoDup.
Qed.
End encoder_facts.

(** ** The adapter *)

Lemma zip_chain_cons {A B : Type} (p : list A * list B) pairs :
  zip_chain (p :: pairs) = zip (fst p) (snd p) ++ zip_chain pairs.
Proof. reflexivity. Qed.

Lemma yield_from_map_total {A B : Type} (f : A → result B) xs :
  Forall (λ x, ∃ y, f x = Ok y) xs →
  ∃ ys, yield_from_map f xs = (ys, None) ∧ Forall2 (λ x y, f x = Ok y) xs ys.
Proof.
  induction 1 as [|x xs [y Hy] _ (ys & Hys & HF)].
  - exists []. split; [done | constructor].
  - exists (y :: ys). simpl. rewrite Hy, Hys. split; [done | by constructor].
Qed.

Section adapter_facts.
Context {KT : Type} {DT : Type} {LT : Type} `{Countable LT}.
Context {score : Type} `{Countable score} `{ScoreLe score}.
Implicit Types (self : DeterministicTextClassifier DT LT score).
Implicit Types (batch instances : list (Instance KT DT)).

Lemma _pred_proba_batch_raw_Ok self batch r :
  _pred_proba_batch_raw self batch = Ok r ↔
  ∃ m, predict_function self (data <$> batch) = Ok m ∧
       r = (identifier <$> batch, m).
Proof.
  unfold _pred_proba_batch_raw, mbind, result_bind, mret, result_ret.
  destruct (predict_function self (data <$> batch)) as [m|e].
  - split; [intros [= <-]; by exists m | by intros (? & [= <-] & ->)].
  - split; [done | by intros (? & ? & _)].
Qed.

Lemma _pred_proba_batch_raw_Err self batch e :
  _pred_proba_batch_raw self batch = Err e ↔
  predict_function self (data <$> batch) = Err e.
Proof.
  unfold _pred_proba_batch_raw, mbind, result_bind, mret, result_ret.
  destruct (predict_function self (data <$> batch)); simpl;
    [split; intros; discriminate | split; intros [= ->]; reflexivity].
Qed.

Lemma _pred_proba_batch_Ok self batch p :
  _pred_proba_batch self batch = Ok p ↔
  ∃ m, predict_function self (data <$> batch) = Ok m ∧
       p = (identifier <$> batch, decode_proba_matrix (encoder self) m).
Proof.
  unfold _pred_proba_batch, mbind, result_bind, mret, result_ret.
  destruct (_pred_proba_batch_raw self batch) as [r|e] eqn:Hraw.
  - apply _pred_proba_batch_raw_Ok in Hraw as (m & Hm & ->). simpl.
    split; [intros [= <-]; by exists m |].
    intros (m' & Hm' & ->). congruence.
  - apply _pred_proba_batch_raw_Err in Hraw.
    split; [done |]. intros (m & Hm & _). congruence.
Qed.

Lemma _pred_batch_Ok self batch p :
  _pred_batch self batch = Ok p ↔
  ∃ m, predict_function self (data <$> batch) = Ok m ∧
       fst p = identifier <$> batch ∧
       Forall2 (decodes_row self) m (snd p).
Proof.
  unfold _pred_batch, mbind, result_bind, mret, result_ret.
  destruct (_pred_proba_batch_raw self batch) as [r|e] eqn:Hraw.
  - apply _pred_proba_batch_raw_Ok in Hraw as (m & Hm & ->). simpl.
    split.
    + destruct (np_argmax_axis1 m) as [idx|] eqn:Hidx; [| done].
      destruct (decode_matrix (encoder self) idx) as [dec|] eqn:Hdec; [| done].
      intros [= <-]. exists m. repeat split; [done |]. simpl.
      apply traverse_Ok_Forall2 in Hidx, Hdec.
      clear Hm. revert dec Hdec.
      induction Hidx as [|row c m idx Hc _ IH]; intros dec Hdec;
        inversion Hdec as [|? s ? dec' Hs Hdec']; subst; constructor.
      * apply decode_vector_Ok in Hs as (l & Hl & ->). by exists c, l.
      * by apply IH.
    + intros (m' & Hm' & Hkeys & Hrows).
      assert (m' = m) as -> by congruence.
      assert (∃ idx, traverse np_argmax_row m = Ok idx ∧
                     traverse (decode_vector (encoder self)) idx = Ok (snd p))
        as (idx & Hidx & Hdec).
      { clear Hm Hm'. induction Hrows as [|row s m dec (c & l & Hc & Hl & ->) _ IH].
        - by exists [].
        - destruct IH as (idx & Hidx & Hdec). exists (c :: idx).
          assert (decode_vector (encoder self) c = Ok {[ l ]}) as Hs.
          { apply decode_vector_Ok. by exists l. }
          simpl. by rewrite Hc, Hidx, Hs, Hdec. }
      unfold np_argmax_axis1, decode_matrix. rewrite Hidx, Hdec.
      destruct p as [keys dec]. simpl in *. by subst.
  - apply _pred_proba_batch_raw_Err in Hraw.
    split; [done |]. intros (m & Hm & _). congruence.
Qed.

(** Whatever [f] computes per batch, if each result pairs the batch's
    identifiers with as many entries, chaining the zips lists the
    identifiers of all batches in order. *)
Lemma zip_chain_keys {B : Type}
    (f : list (Instance KT DT) → result (list KT * list B)) batches processed :
  traverse f batches = Ok processed →
  (∀ batch p, f batch = Ok p →
     fst p = identifier <$> batch ∧ length (snd p) = length batch) →
  (zip_chain processed).*1 = identifier <$> concat batches.
Proof.
  intros Htr Hf. apply traverse_Ok_Forall2 in Htr.
  induction Htr as [|batch p batches processed Hp _ IH]; [done |].
  rewrite zip_chain_cons, fmap_app, IH. simpl. rewrite fmap_app.
  destruct (Hf batch p Hp) as [Hk Hlen].
  rewrite fst_zip; [by rewrite Hk |].
  rewrite Hk, Hlen. by rewrite length_fmap.
Qed.

Lemma predict_instances_Ok self instances b res :
  (1 ≤ b)%Z →
  predict_instances self instances b = Ok res ↔
  ∃ processed,
    traverse (_pred_batch self) (chunks (Z.to_nat b) instances) = Ok processed ∧
    res = zip_chain processed.
Proof.
  intros Hb. unfold predict_instances, divide_iterable_in_lists.
  destruct (Z.ltb_spec b 1); [lia |].
  assert (Ok (chunks (Z.to_nat b) instances)
          = match instances with
            | [] => Ok []
            | _ :: _ => Ok (chunks (Z.to_nat b) instances)
            end) as <- by (by destruct instances).
  unfold mbind, result_bind, mret, result_ret.
  destruct (traverse _ _) as [processed|e].
  - split; [intros [= <-]; by eexists | by intros (? & [= <-] & ->)].
  - split; [done | by intros (? & ? & _)].
Qed.

Lemma predict_proba_instances_Ok self instances b res :
  (1 ≤ b)%Z →
  predict_proba_instances self instances b = Ok res ↔
  ∃ processed,
    traverse (_pred_proba_batch self) (chunks (Z.to_nat b) instances) = Ok processed ∧
    res = zip_chain processed.
Proof.
  intros Hb. unfold predict_proba_instances, divide_iterable_in_lists.
  destruct (Z.ltb_spec b 1); [lia |].
  assert (Ok (chunks (Z.to_nat b) instances)
          = match instances with
            | [] => Ok []
            | _ :: _ => Ok (chunks (Z.to_nat b) instances)
            end) as <- by (by destruct instances).
  unfold mbind, result_bind, mret, result_ret.
  destruct (traverse _ _) as [processed|e].
  - split; [intros [= <-]; by eexists | by intros (? & [= <-] & ->)].
  - split; [done | by intros (? & ? & _)].
Qed.

Lemma predict_instances_keys self instances b res :
  (1 ≤ b)%Z → one_row_per_instance self →
  predict_instances self instances b = Ok res →
  res.*1 = identifier <$> instances.
Proof.
  intros Hb Hrows Hres.
  apply predict_instances_Ok in Hres as (processed & Htr & Hres); [| done].
  subst res.
  erewrite zip_chain_keys; [by rewrite concat_chunks | exact Htr |].
  intros batch p Hp. apply _pred_batch_Ok in Hp as (m & Hm & Hk & Hdec).
  split; [done |].
  apply Forall2_length in Hdec. rewrite <- Hdec.
  apply Hrows in Hm. by rewrite Hm, length_fmap.
Qed.

Lemma predict_proba_instances_keys self instances b res :
  (1 ≤ b)%Z → one_row_per_instance self →
  predict_proba_instances self instances b = Ok res →
  res.*1 = identifier <$> instances.
Proof.
  intros Hb Hrows Hres.
  apply predict_proba_instances_Ok in Hres as (processed & Htr & Hres); [| done].
  subst res.
  erewrite zip_chain_keys; [by rewrite concat_chunks | exact Htr |].
  intros batch p Hp. apply _pred_proba_batch_Ok in Hp as (m & Hm & Hp).
  subst p. split; [done |].
  simpl. unfold decode_proba_matrix. rewrite length_fmap.
  apply Hrows in Hm. by rewrite Hm, length_fmap.
Qed.
Lemma argmax_scan_bound (row : list score) : ∀ best best_i i,
  (best_i < i)%nat → (argmax_scan best best_i i row < i + length row)%nat.
Proof.
  induction row as [|x row IH]; intros best best_i i Hlt; simpl; [lia |].
  destruct (score_le x best).
  - specialize (IH best best_i (S i)). lia.
  - specialize (IH x i (S i)). lia.
Qed.

Lemma np_argmax_row_lt (row : list score) c :
  np_argmax_row row = Ok c → (c < length row)%nat.
Proof.
  destruct row as [|x row]; [done |]. intros [= <-].
  pose proof (argmax_scan_bound row x 0%nat 1%nat). simpl. lia.
Qed.

(** A decodable row is decoded. *)
Lemma decodes_row_total self (row : list score) :
  row ≠ [] → (∀ c, (c < length row)%nat → c ∈ columns (encoder self)) →
  ∃ s, decodes_row self row s.
Proof.
  intros Hne Hcols. destruct row as [|x row]; [done |].
  set (c := argmax_scan x 0 1 row).
  assert (np_argmax_row (x :: row) = Ok c) as Hc by done.
  destruct (proj2 (inv_mapping_is_Some (encoder self) c)) as [l Hl].
  { by apply Hcols, np_argmax_row_lt. }
  exists {[ l ]}, c, l. done.
Qed.

Lemma data_batch_nonempty batch : batch ≠ [] → data <$> batch ≠ [].
Proof. by destruct batch. Qed.

(** With a prediction function that returns, [predict_proba_instances]
    returns. *)
Lemma predict_proba_instances_total self instances b :
  (1 ≤ b)%Z → returns_normally self →
  ∃ res, predict_proba_instances self instances b = Ok res.
Proof.
  intros Hb Hret.
  destruct (traverse_total (_pred_proba_batch self) (chunks (Z.to_nat b) instances))
    as [processed Hp].
  { eapply Forall_impl; [apply chunks_Forall; lia |].
    intros batch [Hne _]. simpl.
    destruct (Hret (data <$> batch)) as [m Hm]; [by apply data_batch_nonempty |].
    eexists. apply _pred_proba_batch_Ok. by exists m. }
  exists (zip_chain processed). apply predict_proba_instances_Ok; [done |].
  by exists processed.
Qed.

(** With a prediction function that returns decodable rows,
    [predict_instances] returns. *)
Lemma predict_instances_total self instances b :
  (1 ≤ b)%Z → returns_normally self → rows_decodable self →
  ∃ res, predict_instances self instances b = Ok res.
Proof.
  intros Hb Hret Hdec.
  destruct (traverse_total (_pred_batch self) (chunks (Z.to_nat b) instances))
    as [processed Hp].
  { eapply Forall_impl; [apply chunks_Forall; lia |].
    intros batch [Hne _]. simpl.
    destruct (Hret (data <$> batch)) as [m Hm]; [by apply data_batch_nonempty |].
    assert (∃ dec, Forall2 (decodes_row self) m dec) as [dec Hrows].
    { specialize (Hdec _ _ Hm). clear Hm.
      induction Hdec as [|row m [Hrow Hcols] _ [dec IH]]; [by exists [] |].
      destruct (decodes_row_total self row Hrow Hcols) as [s Hs].
      exists (s :: dec). by constructor. }
    exists (identifier <$> batch, dec). apply _pred_batch_Ok. by exists m. }
  exists (zip_chain processed). apply predict_instances_Ok; [done |].
  by exists processed.
Qed.

Lemma Forall2_zip_snd {X Y Z : Type} (P : X → Z → Prop) (xs : list X)
    (ks : list Y) (zs : list Z) :
  Forall2 P xs zs → length ks = length zs →
  Forall2 (λ x r, P x (snd r)) xs (zip ks zs).
Proof.
  intros HF. revert ks. induction HF as [|x z xs zs Hxz _ IH]; intros ks Hlen.
  - destruct ks; [constructor | done].
  - destruct ks as [|k ks]; [done |]. simpl in *.
    constructor; [done |]. apply IH. lia.
Qed.

(** The rows of the matrices returned for the batches, in order, are
    decoded into the entries of the result, in order. *)
Lemma pred_batches_rows self batches processed :
  one_row_per_instance self →
  traverse (_pred_batch self) batches = Ok processed →
  ∃ mats,
    Forall2 (λ batch m, predict_function self (data <$> batch) = Ok m) batches mats ∧
    Forall2 (λ row r, decodes_row self row (snd r)) (concat mats) (zip_chain processed).
Proof.
  intros Hrows Htr. apply traverse_Ok_Forall2 in Htr.
  induction Htr as [|batch p batches processed Hp _ (mats & Hmats & IH)].
  - exists []. split; constructor.
  - apply _pred_batch_Ok in Hp as (m & Hm & Hk & Hdec).
    exists (m :: mats). split; [by constructor |].
    rewrite zip_chain_cons. simpl. apply Forall2_app; [| done].
    apply Forall2_zip_snd; [done |].
    rewrite Hk, length_fmap. apply Forall2_length in Hdec.
    rewrite <- Hdec. symmetry. rewrite <- (length_fmap data). by apply Hrows.
Qed.

(** C3: for every sequence of instances and every batch size of at least
    one, with a prediction function that returns one row per instance,
    what [predict_instances] and [predict_proba_instances] return has one
    entry per instance, keyed by the identifiers of the instances in their
    order; [predict_proba_instances] returns whenever the prediction
    function does, and [predict_instances] whenever the rows can be
    decoded as well. *)
Theorem predict_one_entry_per_instance self instances b :
  (1 ≤ b)%Z → one_row_per_instance self →
  (∀ res, predict_instances self instances b = Ok res →
          res.*1 = identifier <$> instances) ∧
  (∀ res, predict_proba_instances self instances b = Ok res →
          res.*1 = identifier <$> instances) ∧
  (returns_normally self →
     ∃ res, predict_proba_instances self instances b = Ok res) ∧
  (returns_normally self → rows_decodable self →
     ∃ res, predict_instances self instances b = Ok res).
Proof.
  intros Hb Hrows. repeat split.
  - intros res. by apply predict_instances_keys.
  - intros res. by apply predict_proba_instances_keys.
  - intros Hret. by apply predict_proba_instances_total.
  - intros Hret Hdec. by apply predict_instances_total.
Qed.

(** C4: for every instance, the entry [predict_instances] returns holds
    the label whose encoder column is the first column with the maximum
    score in that instance's row of the prediction function's output:
    the rows of the matrices returned for the batches, taken in order,
    line up with the entries of the result, which line up with the
    instances. *)
Theorem predict_instances_first_argmax `{!ScoreLeLaws score} self instances b :
  (1 ≤ b)%Z → one_row_per_instance self →
  (returns_normally self → rows_decodable self →
     ∃ res, predict_instances self instances b = Ok res) ∧
  (∀ res, predict_instances self instances b = Ok res →
     ∃ mats,
       Forall2 (λ batch m, predict_function self (data <$> batch) = Ok m)
         (chunks (Z.to_nat b) instances) mats ∧
       res.*1 = identifier <$> instances ∧
       Forall2 (λ row r, ∃ c l,
                  is_first_argmax row c ∧
                  mapping (encoder self) !! l = Some c ∧
                  snd r = {[ l ]})
         (concat mats) res).
Proof.
  intros Hb Hrows. split.
  { intros Hret Hdec. by apply predict_instances_total. }
  intros res Hres.
  pose proof (predict_instances_keys self instances b res Hb Hrows Hres) as Hkeys.
  apply predict_instances_Ok in Hres as (processed & Htr & ->); [| done].
  destruct (pred_batches_rows self _ _ Hrows Htr) as (mats & Hmats & Hdec).
  exists mats. repeat split; [done | done |].
  eapply Forall2_impl; [exact Hdec |].
  intros row r (c & l & Hc & Hl & Hs). exists c, l.
  repeat split; [by apply np_argmax_row_spec | by apply inv_mapping_Some | done].
Qed.

(** *** A prediction function that scores each instance by itself *)

Lemma predicts_one_batch self g batch (r : list (KT * gset LT)) :
  Forall2 (predicts_one self g) batch r ↔
  r.*1 = identifier <$> batch ∧
  Forall2 (decodes_row self) (g <$> (data <$> batch)) r.*2.
Proof.
  revert r. induction batch as [|x batch IH]; intros r.
  - split.
    + intros ->%Forall2_nil_inv_l. split; [done | constructor].
    + intros [Hk _]. destruct r; [constructor | done].
  - split.
    + intros (y & r' & [Hy1 Hy2] & Hr' & ->)%Forall2_cons_inv_l.
      apply IH in Hr' as [Hk Hd]. rewrite !fmap_cons.
      split; [by rewrite Hy1, Hk | by constructor].
    + intros [Hk Hd]. destruct r as [|y r']; [done |].
      rewrite !fmap_cons in Hk. rewrite !fmap_cons in Hd.
      injection Hk as Hy Hk.
      apply Forall2_cons in Hd as [Hd1 Hd2].
      constructor; [done |]. apply IH. done.
Qed.

Lemma pred_batches_rowwise self g batches res :
  scores_each_instance self g → Forall (λ batch, batch ≠ []) batches →
  (∃ processed, traverse (_pred_batch self) batches = Ok processed ∧
                res = zip_chain processed) ↔
  Forall2 (predicts_one self g) (concat batches) res.
Proof.
  intros Hg Hne. revert res.
  induction Hne as [|batch batches Hbatch _ IH]; intros res.
  - split.
    + intros (processed & [= <-] & ->). constructor.
    + intros ->%Forall2_nil_inv_l. by exists [].
  - pose proof (Hg (data <$> batch) (data_batch_nonempty batch Hbatch)) as Hm.
    split.
    + intros (processed & Htr & ->). simpl in Htr.
      destruct (_pred_batch self batch) as [p|] eqn:Hp; [| done].
      destruct (traverse (_pred_batch self) batches) as [ps|] eqn:Hps; [| done].
      injection Htr as <-. rewrite zip_chain_cons. simpl.
      apply Forall2_app; [| apply IH; by exists ps].
      apply _pred_batch_Ok in Hp as (m & Hm' & Hk & Hd).
      assert (m = g <$> (data <$> batch)) as -> by congruence.
      pose proof (Forall2_length _ _ _ Hd) as Hlen.
      rewrite !length_fmap in Hlen.
      apply predicts_one_batch.
      rewrite fst_zip, snd_zip; [done | |]; rewrite Hk, length_fmap; lia.
    + simpl. intros (r1 & r2 & Hr1 & Hr2 & ->)%Forall2_app_inv_l.
      apply IH in Hr2 as (ps & Hps & ->).
      apply predicts_one_batch in Hr1 as [Hk Hd].
      exists ((r1.*1, r1.*2) :: ps). split.
      * simpl. rewrite Hps.
        assert (_pred_batch self batch = Ok (r1.*1, r1.*2)) as ->; [| done].
        apply _pred_batch_Ok. by eexists.
      * rewrite zip_chain_cons. simpl. by rewrite zip_fst_snd.
Qed.

(** With such a function, what [predict_instances] returns is fixed
    instance by instance, whatever the batch size. *)
Lemma predict_instances_rowwise self g instances b res :
  (1 ≤ b)%Z → scores_each_instance self g →
  predict_instances self instances b = Ok res ↔
  Forall2 (predicts_one self g) instances res.
Proof.
  intros Hb Hg. rewrite predict_instances_Ok by done.
  rewrite (pred_batches_rowwise self g) by
    first [done | eapply Forall_impl; [apply chunks_Forall; lia | by intros ? []]].
  by rewrite concat_chunks.
Qed.

Lemma pred_proba_batches_rowwise self g batches :
  scores_each_instance self g → Forall (λ batch, batch ≠ []) batches →
  ∃ processed,
    traverse (_pred_proba_batch self) batches = Ok processed ∧
    zip_chain processed
    = (λ x, (identifier x, decode_proba_row (encoder self) (g (data x))))
        <$> concat batches.
Proof.
  intros Hg Hne. induction Hne as [|batch batches Hbatch _ (ps & Hps & IH)].
  - by exists [].
  - pose proof (Hg (data <$> batch) (data_batch_nonempty batch Hbatch)) as Hm.
    set (p := (identifier <$> batch,
               decode_proba_matrix (encoder self) (g <$> (data <$> batch)))).
    exists (p :: ps). split.
    + assert (_pred_proba_batch self batch = Ok p) as Hp.
      { apply _pred_proba_batch_Ok. by eexists. }
      simpl. by rewrite Hp, Hps.
    + rewrite zip_chain_cons, IH, concat_cons, fmap_app. f_equal.
      unfold p, decode_proba_matrix. clear.
      induction batch as [|x batch IHb]; [done |].
      rewrite !fmap_cons. simpl. by rewrite <- IHb.
Qed.

Lemma predict_proba_instances_rowwise self g instances b :
  (1 ≤ b)%Z → scores_each_instance self g →
  predict_proba_instances self instances b
  = Ok ((λ x, (identifier x, decode_proba_row (encoder self) (g (data x))))
          <$> instances).
Proof.
  intros Hb Hg.
  destruct (pred_proba_batches_rowwise self g (chunks (Z.to_nat b) instances) Hg)
    as (ps & Hps & Hzip).
  { eapply Forall_impl; [apply chunks_Forall; lia | by intros ? []]. }
  rewrite concat_chunks in Hzip. rewrite <- Hzip.
  apply predict_proba_instances_Ok; [done |]. by exists ps.
Qed.

(** C2, amended: for a prediction function that scores each instance by
    itself, and batch sizes [b1], [b2] of at least one,
    [predict_proba_instances] returns the same with [b1] as with [b2], and
    [predict_instances] returns a value with [b1] exactly when it returns
    that value with [b2]. *)
Theorem batch_size_changes_no_output self g instances b1 b2 :
  (1 ≤ b1)%Z → (1 ≤ b2)%Z → scores_each_instance self g →
  predict_proba_instances self instances b1
  = predict_proba_instances self instances b2 ∧
  (∀ res, predict_instances self instances b1 = Ok res ↔
          predict_instances self instances b2 = Ok res).
Proof.
  intros Hb1 Hb2 Hg. split.
  - by rewrite !(predict_proba_instances_rowwise self g).
  - intros res. by rewrite !(predict_instances_rowwise self g).
Qed.

(** *** The raw generator *)

Lemma divide_iterable_in_lists_Ok instances b :
  (1 ≤ b)%Z →
  divide_iterable_in_lists instances b = Ok (chunks (Z.to_nat b) instances).
Proof.
  intros Hb. unfold divide_iterable_in_lists.
  destruct (Z.ltb_spec b 1); [lia |]. by destruct instances.
Qed.

(** C10: for [n] instances and a batch size [b] of at least one, with a
    prediction function that returns on every batch,
    [predict_proba_instances_raw] yields [ceil(n / b)] pairs and then
    stops; pair number [q] holds the identifiers of the slice
    [[q*b : q*b + b]] of the instances, in order, and the matrix the
    prediction function returns for the data of that slice, as it is. *)
Theorem predict_proba_instances_raw_batches self instances b :
  (1 ≤ b)%Z → returns_normally self →
  ∃ items,
    predict_proba_instances_raw self instances b = (items, None) ∧
    length items
    = ((length instances + Z.to_nat b - 1) / Z.to_nat b)%nat ∧
    ∀ q item, items !! q = Some item →
      let batch := take (Z.to_nat b) (drop (q * Z.to_nat b) instances) in
      batch ≠ [] ∧
      fst item = identifier <$> batch ∧
      predict_function self (data <$> batch) = Ok (snd item).
Proof.
  intros Hb Hret. unfold predict_proba_instances_raw.
  rewrite divide_iterable_in_lists_Ok by done.
  pose proof (chunks_Forall (Z.to_nat b) instances ltac:(lia)) as Hchunks.
  destruct (yield_from_map_total (_pred_proba_batch_raw self)
              (chunks (Z.to_nat b) instances)) as (items & Hitems & HF).
  { eapply Forall_impl; [exact Hchunks |]. intros batch [Hne _]. simpl.
    destruct (Hret (data <$> batch)) as [m Hm]; [by apply data_batch_nonempty |].
    eexists. apply _pred_proba_batch_raw_Ok. by exists m. }
  exists items. split; [done |]. split.
  - rewrite <- (Forall2_length _ _ _ HF). apply length_chunks. lia.
  - intros q item Hq.
    destruct (Forall2_lookup_r _ _ _ _ _ HF Hq) as (batch & Hbatch & Hraw).
    pose proof (Forall_lookup_1 _ _ _ _ Hchunks Hbatch) as [Hne _].
    apply chunks_lookup in Hbatch as <-; [| lia].
    apply _pred_proba_batch_raw_Ok in Hraw as (m & Hm & ->).
    by repeat split.
Qed.

(** *** Frame properties *)

(** C5: [fit_instances] and [fit_provider] raise nothing, return [None]
    and leave the adapter as it was, so [predict_instances] answers after
    a fit as it did before. *)
Theorem fit_is_a_no_op self instances (labels : list (list LT))
    (provider : InstanceProvider KT DT) (plabels : list (KT * list LT)) (b : Z) :
  fit_instances self instances labels = (Ok tt, self) ∧
  fit_provider self provider plabels b = (Ok tt, self) ∧
  (∀ xs (bs : Z),
     predict_instances (snd (fit_instances self instances labels)) xs bs
     = predict_instances (KT:=KT) self xs bs) ∧
  (∀ xs (bs : Z),
     predict_instances (snd (fit_provider self provider plabels b)) xs bs
     = predict_instances (KT:=KT) self xs bs).
Proof. repeat split. Qed.

(** C9: [set_target_labels] changes the encoder only: the prediction
    function stored is the one stored before, and
    [predict_proba_instances_raw] yields after the call what it yielded
    before, for every sequence of instances and every batch size. *)
Theorem set_target_labels_keeps_raw_scores self (labels : list LT) :
  predict_function (set_target_labels self labels) = predict_function self ∧
  (∀ instances (b : Z),
     predict_proba_instances_raw (set_target_labels self labels) instances b
     = predict_proba_instances_raw (KT:=KT) self instances b).
Proof. split; [reflexivity |]. intros instances b. reflexivity. Qed.

(** *** Failures *)

Lemma _pred_batch_raised self batch e :
  predict_function self (data <$> batch) = Err e → _pred_batch self batch = Err e.
Proof.
  intros He. unfold _pred_batch, _pred_proba_batch_raw. by rewrite He.
Qed.

Lemma _pred_batch_total self batch m :
  predict_function self (data <$> batch) = Ok m → rows_decodable self →
  ∃ p, _pred_batch self batch = Ok p.
Proof.
  intros Hm Hdec.
  assert (∃ dec, Forall2 (decodes_row self) m dec) as [dec Hrows].
  { specialize (Hdec _ _ Hm). clear Hm.
    induction Hdec as [|row m' [Hrow Hcols] _ [dec IH]]; [by exists [] |].
    destruct (decodes_row_total self row Hrow Hcols) as [s Hs].
    exists (s :: dec). by constructor. }
  exists (identifier <$> batch, dec). apply _pred_batch_Ok. by exists m.
Qed.

Lemma yield_from_map_raised {X Y : Type} (f : X → result Y) xs ys e :
  yield_from_map f xs = (ys, Some e) → ∃ x, x ∈ xs ∧ f x = Err e.
Proof.
  revert ys. induction xs as [|x xs IH]; intros ys; simpl; [done |].
  destruct (f x) as [y|e'] eqn:Hx.
  - destruct (yield_from_map f xs) as [ys' e'] eqn:Hxs.
    intros [= <- ->]. destruct (IH ys' eq_refl) as (x' & Hin & Hx').
    exists x'. split; [by right | done].
  - intros [= <- ->]. exists x. split; [by left | done].
Qed.

(** C7, amended: [get_label_column_index] answers what the encoder's own
    lookup answers, unchanged; so, with an encoder whose lookup follows the
    spec, it returns the column the encoder stores for a label of the label
    set and raises a [LookupError] for any other label. The fit methods
    return. With a batch size of at least one, an exception that leaves
    [predict_proba_instances] or the raw generator is one the prediction
    function raised on a batch, and so is one that leaves
    [predict_instances] when the rows returned can be decoded. *)
Theorem get_label_column_index_delegates {lookup : EncoderLookup LT} self (label : LT) :
  get_label_column_index self label
  = encoder_get_label_column_index (encoder self) label ∧
  (EncoderLookupSpec LT →
     (label ∈ labelset (encoder self) →
        ∃ i, mapping (encoder self) !! label = Some i ∧
             get_label_column_index self label = Ok i) ∧
     (label ∉ labelset (encoder self) →
        ∃ e, get_label_column_index self label = Err e ∧ is_LookupError e = true)) ∧
  (∀ instances labels (provider : InstanceProvider KT DT) plabels bs,
     fst (fit_instances self instances labels) = Ok tt ∧
     fst (fit_provider self provider plabels bs) = Ok tt) ∧
  (∀ instances (b : Z) e,
     (1 ≤ b)%Z →
     predict_proba_instances self instances b = Err e ∨
     (∃ items, predict_proba_instances_raw self instances b = (items, Some e)) ∨
     (rows_decodable self ∧ predict_instances self instances b = Err e) →
     ∃ batch : list (Instance KT DT),
       batch ∈ chunks (Z.to_nat b) instances ∧
       predict_function self (data <$> batch) = Err e).
Proof.
  split; [| split; [| split]].
  - reflexivity.
  - intros Hspec. unfold labelset, get_label_column_index. split.
    + intros [i Hi]%elem_of_dom. exists i. split; [done |]. by apply lookup_known.
    + intros Hnot%not_elem_of_dom. by apply lookup_unknown.
  - done.
  - intros instances b e Hb [Hp|[[items Hr]|[Hdec Hp]]].
    + unfold predict_proba_instances in Hp.
      rewrite divide_iterable_in_lists_Ok in Hp by done. simpl in Hp.
      destruct (traverse _ _) as [ps|e'] eqn:Htr; [done |].
      injection Hp as ->.
      apply traverse_Err_inv in Htr as (batch & Hin & Hbatch).
      exists batch. split; [done |].
      unfold _pred_proba_batch, _pred_proba_batch_raw in Hbatch.
      destruct (predict_function self (data <$> batch)) as [m|e'];
        [done | by injection Hbatch as ->].
    + unfold predict_proba_instances_raw in Hr.
      rewrite divide_iterable_in_lists_Ok in Hr by done.
      apply yield_from_map_raised in Hr as (batch & Hin & Hbatch).
      exists batch. split; [done |]. by apply _pred_proba_batch_raw_Err.
    + unfold predict_instances in Hp.
      rewrite divide_iterable_in_lists_Ok in Hp by done. simpl in Hp.
      destruct (traverse _ _) as [ps|e'] eqn:Htr; [done |].
      injection Hp as ->.
      apply traverse_Err_inv in Htr as (batch & Hin & Hbatch).
      exists batch. split; [done |].
      destruct (predict_function self (data <$> batch)) as [m|e'] eqn:Hm.
      * destruct (_pred_batch_total self batch m Hm Hdec) as [p Hp]. congruence.
      * apply _pred_batch_raised in Hm. congruence.
Qed.

(** *** The encoder built by [set_target_labels] *)

(** C8, amended: after [set_target_labels labels] every label supplied
    has its one column index, a position at which it occurs in [labels];
    and when no label occurs twice, the label at position [i] has column
    [i], so that the columns in use are [0, ..., len(labels) - 1],
    contiguous from 0. *)
Theorem set_target_labels_columns self (labels : list LT) :
  let enc := encoder (set_target_labels self labels) in
  (∀ l, l ∈ labels →
     ∃ i, mapping enc !! l = Some i ∧ labels !! i = Some l) ∧
  (∀ l, l ∉ labels → mapping enc !! l = None) ∧
  (NoDup labels →
     (∀ i l, labels !! i = Some l → mapping enc !! l = Some i) ∧
     columns enc = set_seq 0 (length labels) ∧
     contiguous_from_0 enc).
Proof.
  simpl. split; [| split].
  - intros l [i Hi]%label_dict_is_Some. exists i. split; [done |].
    by apply label_dict_lookup_Some.
  - intros l Hl. apply eq_None_not_Some. by rewrite label_dict_is_Some.
  - intros Hnd. split; [| split].
    + intros i l. by apply label_dict_NoDup.
    + by apply columns_label_dict_NoDup.
    + unfold contiguous_from_0.
      rewrite (columns_label_dict_NoDup labels Hnd) at 2.
      rewrite size_set_seq. by apply columns_label_dict_NoDup.
Qed.
End adapter_facts.

(** ** Adapters built by [from_callable] *)

Section from_callable_facts.
Context {DT : Type} {LT : Type} `{Countable LT}.
Context {score : Type} `{Countable score} `{ScoreLe score}.

Lemma np_vstack_Ok (rows m : list (list score)) :
  np_vstack rows = Ok m → m = rows.
Proof.
  unfold np_vstack. destruct rows as [|r rs]; [done |].
  destruct (forallb _ rs); [| done]. by intros [= <-].
Qed.

Lemma from_callable_one_row (f : DT → result (list score)) (labels : list LT) :
  one_row_per_instance (from_callable f labels).
Proof.
  intros xs m. simpl. unfold batched_predict_function, mbind, result_bind.
  destruct (traverse f xs) as [rows|] eqn:Hrows; [| done].
  intros ->%np_vstack_Ok.
  apply traverse_Ok_Forall2, Forall2_length in Hrows. done.
Qed.

(** A per-instance function that returns score vectors of one length
    gives a batched function that scores each instance by itself. *)
Lemma from_callable_scores_each (f : DT → result (list score)) g k
    (labels : list LT) :
  (∀ x, f x = Ok (g x)) → (∀ x, length (g x) = k) →
  scores_each_instance (from_callable f labels) g.
Proof.
  intros Hf Hlen xs Hne. simpl. unfold batched_predict_function.
  assert (traverse f xs = Ok (g <$> xs)) as ->.
  { apply traverse_Ok_Forall2. apply Forall2_fmap_r, Forall_Forall2_diag.
    apply Forall_forall. intros x _. apply Hf. }
  assert (np_vstack (g <$> xs) = Ok (g <$> xs)) as Hstack; [| done].
  destruct xs as [|x xs]; [done |]. rewrite fmap_cons. unfold np_vstack.
  assert (forallb (λ r', length r' =? length (g x))%nat (g <$> xs) = true) as ->;
    [| done].
  apply forallb_forall. intros r [x' [<- _]]%in_map_iff.
  apply Nat.eqb_eq. by rewrite !Hlen.
Qed.

Lemma scores_each_returns_normally (self : DeterministicTextClassifier DT LT score) g :
  scores_each_instance self g → returns_normally self.
Proof. intros Hg xs Hne. eexists. by apply Hg. Qed.
End from_callable_facts.

(** ** The test fixtures *)

#[global] Instance Qc_score_le_laws : ScoreLeLaws Qc.
Proof.
  split.
  - intros x y. unfold score_le, Qc_score_le. rewrite !Qle_bool_iff.
    destruct (Qlt_le_dec x y) as [Hlt|Hle]; [left; by apply Qlt_le_weak | by right].
  - intros x y z. unfold score_le, Qc_score_le. rewrite !Qle_bool_iff.
    apply Qle_trans.
Qed.

Lemma TEST_MODEL_scores_each : scores_each_instance TEST_MODEL predict_fn_scores.
Proof.
  apply (from_callable_scores_each predict_fn predict_fn_scores 2%nat); [done |].
  intros x. unfold predict_fn_scores. by destruct (any_in _ _).
Qed.

Lemma TEST_MODEL_one_row : one_row_per_instance TEST_MODEL.
Proof. apply from_callable_one_row. Qed.

Lemma TEST_MODEL_returns_normally : returns_normally TEST_MODEL.
Proof. eapply scores_each_returns_normally, TEST_MODEL_scores_each. Qed.

Lemma TEST_MODEL_columns : columns (encoder TEST_MODEL) = {[ 0%nat; 1%nat ]}.
Proof.
  unfold TEST_MODEL, from_callable, init. simpl.
  rewrite columns_label_dict_NoDup.
  - apply set_eq. intros c.
    rewrite elem_of_set_seq, elem_of_union, !elem_of_singleton. simpl. lia.
  - apply (bool_decide_unpack _). vm_compute. reflexivity.
Qed.

Lemma TEST_MODEL_rows_decodable : rows_decodable TEST_MODEL.
Proof.
  intros xs m Hm. destruct xs as [|x xs]; [done |].
  rewrite (TEST_MODEL_scores_each (x :: xs)) in Hm by done.
  assert (m = predict_fn_scores <$> (x :: xs)) as -> by congruence.
  rewrite Forall_fmap. apply Forall_forall. intros x' _. unfold compose.
  assert (length (predict_fn_scores x') = 2%nat) as Hlen.
  { unfold predict_fn_scores. by destruct (any_in _ _). }
  split; [by destruct (predict_fn_scores x') |].
  intros c Hc. rewrite TEST_MODEL_columns, elem_of_union, !elem_of_singleton. lia.
Qed.

(** The end-to-end example of the specification. *)
Example test_model_run :
  predict_instances TEST_MODEL (instances_of ["!"; "z"]) 200
  = Ok [(0%nat, {[ "punctuation" ]}); (1%nat, {[ "no_punctuation" ]})].
Proof. vm_compute. reflexivity. Qed.

Lemma BATCH_AWARE_MODEL_one_row : one_row_per_instance BATCH_AWARE_MODEL.
Proof. intros xs m [= <-]. by rewrite length_fmap. Qed.

Example batch_aware_run_1 :
  predict_instances BATCH_AWARE_MODEL (instances_of ["!"; "z"]) 1
  = Ok [(0%nat, {[ "punctuation" ]}); (1%nat, {[ "punctuation" ]})].
Proof. vm_compute. reflexivity. Qed.

Example batch_aware_run_2 :
  predict_instances BATCH_AWARE_MODEL (instances_of ["!"; "z"]) 2
  = Ok [(0%nat, {[ "no_punctuation" ]}); (1%nat, {[ "no_punctuation" ]})].
Proof. vm_compute. reflexivity. Qed.

Example batch_aware_proba_1 :
  predict_proba_instances BATCH_AWARE_MODEL (instances_of ["!"; "z"]) 1
  = Ok [(0%nat, decode_proba_row (encoder BATCH_AWARE_MODEL) [Q2Qc 1; Q2Qc 0]);
        (1%nat, decode_proba_row (encoder BATCH_AWARE_MODEL) [Q2Qc 1; Q2Qc 0])].
Proof. reflexivity. Qed.

Example batch_aware_proba_2 :
  predict_proba_instances BATCH_AWARE_MODEL (instances_of ["!"; "z"]) 2
  = Ok [(0%nat, decode_proba_row (encoder BATCH_AWARE_MODEL) [Q2Qc 0; Q2Qc 1]);
        (1%nat, decode_proba_row (encoder BATCH_AWARE_MODEL) [Q2Qc 0; Q2Qc 1])].
Proof. reflexivity. Qed.

(** C2, as stated, fails: a prediction function that is deterministic and
    returns one row per instance, but scores an instance by the size of its
    batch, makes [predict_instances] and [predict_proba_instances] answer
    differently for batch sizes 1 and 2. *)
Lemma batch_size_changes_output_counterexample :
  one_row_per_instance BATCH_AWARE_MODEL ∧
  predict_instances BATCH_AWARE_MODEL (instances_of ["!"; "z"]) 1
  ≠ predict_instances BATCH_AWARE_MODEL (instances_of ["!"; "z"]) 2 ∧
  predict_proba_instances BATCH_AWARE_MODEL (instances_of ["!"; "z"]) 1
  ≠ predict_proba_instances BATCH_AWARE_MODEL (instances_of ["!"; "z"]) 2.
Proof.
  split; [apply BATCH_AWARE_MODEL_one_row |]. split.
  - rewrite batch_aware_run_1, batch_aware_run_2. intros Heq.
    apply (f_equal (λ r, match r with
                         | Ok ((_, s) :: _) => s
                         | _ => (∅ : gset string)
                         end)) in Heq.
    assert ("punctuation" ∈ ({[ "no_punctuation" ]} : gset string)) as Hin
      by (rewrite <- Heq; by apply elem_of_singleton).
    by apply elem_of_singleton in Hin.
  - rewrite batch_aware_proba_1, batch_aware_proba_2. intros Heq.
    apply (f_equal (λ r, match r with
                         | Ok ((_, s) :: _) => s
                         | _ => (∅ : gset (string * Qc))
                         end)) in Heq.
    cbv beta iota in Heq.
    assert (("punctuation", Q2Qc 1) ∈
            decode_proba_row (encoder BATCH_AWARE_MODEL) [Q2Qc 0; Q2Qc 1]) as Hin.
    { rewrite <- Heq. unfold decode_proba_row. apply elem_of_list_to_set.
      apply list_elem_of_omap. exists ("punctuation", 0%nat). split; [| done].
      apply elem_of_map_to_list. by vm_compute. }
    unfold decode_proba_row in Hin. apply elem_of_list_to_set in Hin.
    apply list_elem_of_omap in Hin as ([l c] & Hlc & Hrow).
    apply elem_of_map_to_list in Hlc.
    destruct c as [|[|c]]; cbn in Hrow.
    + by injection Hrow.
    + injection Hrow as ->. by vm_compute in Hlc.
    + discriminate Hrow.
Qed.

(** The amended C2 at the test model, for the batch sizes 1 and 200. *)
Lemma batch_size_changes_no_output_witness :
  predict_proba_instances TEST_MODEL (instances_of ["!"; "z"]) 1
  = predict_proba_instances TEST_MODEL (instances_of ["!"; "z"]) 200 ∧
  (∀ res, predict_instances TEST_MODEL (instances_of ["!"; "z"]) 1 = Ok res ↔
          predict_instances TEST_MODEL (instances_of ["!"; "z"]) 200 = Ok res).
Proof.
  apply (batch_size_changes_no_output TEST_MODEL predict_fn_scores);
    [lia | lia | exact TEST_MODEL_scores_each].
Defined.

(** C3 at the test model, for two instances and batches of one. *)
Lemma predict_one_entry_per_instance_witness :
  (∀ res, predict_instances TEST_MODEL (instances_of ["!"; "z"]) 1 = Ok res →
          res.*1 = identifier <$> instances_of ["!"; "z"]) ∧
  (∀ res, predict_proba_instances TEST_MODEL (instances_of ["!"; "z"]) 1 = Ok res →
          res.*1 = identifier <$> instances_of ["!"; "z"]) ∧
  (∃ res, predict_proba_instances TEST_MODEL (instances_of ["!"; "z"]) 1 = Ok res) ∧
  (∃ res, predict_instances TEST_MODEL (instances_of ["!"; "z"]) 1 = Ok res).
Proof.
  destruct (predict_one_entry_per_instance TEST_MODEL (instances_of ["!"; "z"]) 1)
    as (H1 & H2 & H3 & H4); [lia | exact TEST_MODEL_one_row |].
  split; [exact H1 |]. split; [exact H2 |]. split.
  - apply H3, TEST_MODEL_returns_normally.
  - apply H4; [apply TEST_MODEL_returns_normally | apply TEST_MODEL_rows_decodable].
Defined.

(** C4 at the test model, for two instances and batches of one. *)
Lemma predict_instances_first_argmax_witness :
  ∃ res mats,
    predict_instances TEST_MODEL (instances_of ["!"; "z"]) 1 = Ok res ∧
    Forall2 (λ batch m, predict_function TEST_MODEL (data <$> batch) = Ok m)
      (chunks 1 (instances_of ["!"; "z"])) mats ∧
    res.*1 = identifier <$> instances_of ["!"; "z"] ∧
    Forall2 (λ row r, ∃ c l,
               is_first_argmax row c ∧
               mapping (encoder TEST_MODEL) !! l = Some c ∧
               snd r = {[ l ]})
      (concat mats) res.
Proof.
  destruct (predict_instances_first_argmax TEST_MODEL (instances_of ["!"; "z"]) 1)
    as [Hret Hres]; [lia | exact TEST_MODEL_one_row |].
  destruct (Hret TEST_MODEL_returns_normally TEST_MODEL_rows_decodable) as [res Hr].
  destruct (Hres res Hr) as (mats & Hm & Hk & Hd).
  exists res, mats. by repeat split.
Defined.

(** C10 at the test model: three instances in batches of two give two pairs. *)
Lemma predict_proba_instances_raw_batches_witness :
  ∃ items,
    predict_proba_instances_raw TEST_MODEL (instances_of ["!"; "z"; "a"]) 2
    = (items, None) ∧
    length items = 2%nat.
Proof.
  destruct (predict_proba_instances_raw_batches TEST_MODEL
              (instances_of ["!"; "z"; "a"]) 2)
    as (items & Hrun & Hlen & _); [lia | exact TEST_MODEL_returns_normally |].
  exists items. split; [exact Hrun | exact Hlen].
Defined.

#[global] Instance dict_lookup_spec : EncoderLookupSpec string (lookup := dict_lookup).
Proof.
  split.
  - intros enc l i Hl. unfold encoder_get_label_column_index, dict_lookup.
    by rewrite Hl.
  - intros enc l Hl. exists KeyError.
    unfold encoder_get_label_column_index, dict_lookup. by rewrite Hl.
Qed.

(** C7, as stated, fails: the unknown label is not the only failure of the
    adapter besides what the prediction function raises. A prediction
    function that raises on no input and returns rows without columns makes
    [predict_instances] raise [ValueError], the refusal of [np.argmax]. *)
Lemma adapter_failure_not_raised_counterexample :
  (∀ xs e, predict_function NO_COLUMN_MODEL xs ≠ Err e) ∧
  predict_instances NO_COLUMN_MODEL (instances_of ["z"]) 1 = Err ValueError.
Proof. split; [done | reflexivity]. Qed.

(** The amended C7 at the test model with a lookup that follows the spec,
    for a known and an unknown label, and at a model whose prediction
    function raises. *)
Lemma get_label_column_index_delegates_witness :
  (∃ i, mapping (encoder TEST_MODEL) !! "punctuation" = Some i ∧
        get_label_column_index (lookup := dict_lookup) TEST_MODEL "punctuation"
        = Ok i) ∧
  (∃ e, get_label_column_index (lookup := dict_lookup) TEST_MODEL "other" = Err e ∧
        is_LookupError e = true) ∧
  (∃ batch, batch ∈ chunks 1 (instances_of ["!"; "z"]) ∧
            predict_function RAISING_MODEL (data <$> batch)
            = Err (Raised "unavailable")).
Proof.
  split; [| split].
  - destruct (get_label_column_index_delegates (KT:=nat) (lookup := dict_lookup)
                TEST_MODEL "punctuation") as (_ & Hspec & _).
    apply (Hspec dict_lookup_spec).
    apply (bool_decide_unpack _). vm_compute. reflexivity.
  - destruct (get_label_column_index_delegates (KT:=nat) (lookup := dict_lookup)
                TEST_MODEL "other") as (_ & Hspec & _).
    apply (Hspec dict_lookup_spec).
    apply (bool_decide_unpack _). vm_compute. reflexivity.
  - destruct (get_label_column_index_delegates (KT:=nat) (lookup := dict_lookup)
                RAISING_MODEL "other") as (_ & _ & _ & Hraised).
    apply (Hraised (instances_of ["!"; "z"]) 1%Z); [lia | left; reflexivity].
Defined.

Example label_dict_duplicate_run :
  label_dict ["a"; "b"; "a"] !! "a" = Some 2%nat ∧
  label_dict ["a"; "b"; "a"] !! "b" = Some 1%nat.
Proof. split; vm_compute; reflexivity. Qed.

(** C8, as stated, fails: with the labels [a, b, a] the encoder stores
    [a] with column 2 and [b] with column 1, so column 0 is not in use and
    the columns are not contiguous from 0. *)
Lemma set_target_labels_duplicate_counterexample :
  ¬ contiguous_from_0 (encoder (set_target_labels TEST_MODEL ["a"; "b"; "a"])).
Proof.
  unfold contiguous_from_0. intros Heq.
  assert (0%nat ∈ columns (encoder (set_target_labels TEST_MODEL ["a"; "b"; "a"])))
    as Hin.
  { rewrite Heq. apply elem_of_set_seq. split; [lia |].
    assert (size (columns (encoder (set_target_labels TEST_MODEL ["a"; "b"; "a"])))
            = 2%nat) as -> by (vm_compute; reflexivity).
    lia. }
  revert Hin. apply (bool_decide_unpack _). vm_compute. reflexivity.
Qed.

(** The amended C8 at the two labels of the test model. *)
Lemma set_target_labels_columns_witness :
  (∀ i l, ["punctuation"; "no_punctuation"] !! i = Some l →
          mapping (encoder (set_target_labels TEST_MODEL
                              ["punctuation"; "no_punctuation"])) !! l = Some i) ∧
  contiguous_from_0
    (encoder (set_target_labels TEST_MODEL ["punctuation"; "no_punctuation"])).
Proof.
  destruct (set_target_labels_columns TEST_MODEL ["punctuation"; "no_punctuation"])
    as (_ & _ & Hnd).
  destruct Hnd as (Hidx & _ & Hcont).
  { apply (bool_decide_unpack _). vm_compute. reflexivity. }
  split; [exact Hidx | exact Hcont].
Defined.

(** * Further properties of the fixture utilities *)

Lemma sublist_full {A : Type} (l1 l2 : list A) :
  l1 `sublist_of` l2 → (length l2 ≤ length l1)%nat → l1 = l2.
Proof.
  induction 1 as [|x l1 l2 _ IH|x l1 l2 Hsub _]; intros Hlen.
  - done.
  - f_equal. apply IH. simpl in Hlen. lia.
  - apply sublist_length in Hsub. simpl in Hlen. lia.
Qed.

(** X1: [corrupt] given a list of strings never raises and returns a list
    with one entry per string, in the order of the input, each entry the
    string with one character of the alphabet in front. *)
Theorem corrupt_iterable_prepends (l : list string) (g : Random.rng) :
  ∃ out, fst (corrupt (a_iterable l) g) = Ok (r_list out) ∧
         Forall2 (λ name o, ∃ c, c ∈ alphabet ∧ o = String c name) l out.
Proof.
  unfold corrupt. simpl.
  destruct (RandomFacts.for_each_spec corrupt_one
              (λ name o, ∃ c, c ∈ alphabet ∧ o = String c name) l) with (g := g)
    as (out & g' & Hout & HP).
  { intros name g0 _. destruct (corrupt_one_spec name g0) as (c & g1 & Hc & Hin).
    exists (String c name), g1. split; [done |]. by exists c. }
  exists out. unfold Random.bind. by rewrite Hout.
Qed.


(** X3: [corrupt] given a single string of [n] characters returns a list
    of [n] strings of two characters each, whatever the string and the
    draws. *)
Theorem corrupt_str_one_entry_per_character (s : string) (g : Random.rng) :
  ∃ l, fst (corrupt (a_str s) g) = Ok (r_list l) ∧
       length l = String.length s ∧
       Forall (λ o, String.length o = 2%nat) l.
Proof.
  destruct (corrupt_str_iterates s g) as (l & Hl & HF).
  exists l. split; [done |]. split.
  - apply Forall2_length in HF. rewrite <- HF. clear.
    induction s as [|a s IH]; [done |]. simpl. by rewrite IH.
  - clear Hl. induction HF as [|ch o chs l (c & _ & ->) _ IH]; by constructor.
Qed.

Section random_combinations_facts.
Context {A : Type}.
Implicit Types (items : list A).

Lemma random_combinations_sized items start g :
  ∃ combos g',
    random_combinations items start g = (Ok combos, g') ∧
    Forall2 (λ r c, length c = r ∧ c `sublist_of` items)
      (seq (clamp_start (length items) start)
           (length items + 1 - clamp_start (length items) start)) combos.
Proof.
  unfold random_combinations, range.
  apply RandomFacts.for_each_spec.
  intros r g0 Hr. apply elem_of_seq in Hr.
  apply random_combination_spec. lia.
Qed.

Lemma clamp_start_le items start : (clamp_start (length items) start ≤ length items)%nat.
Proof. unfold clamp_start. lia. Qed.

(** X4: [random_combinations] never returns an empty list: it returns
    [len(items) - clamp(start, 0, len(items)) + 1] combinations, and the
    last of them is the whole of [items], in order. *)
Theorem random_combinations_count_and_last items start (g : Random.rng) :
  ∃ combos g',
    random_combinations items start g = (Ok combos, g') ∧
    length combos = (length items - clamp_start (length items) start + 1)%nat ∧
    last combos = Some items.
Proof.
  destruct (random_combinations_sized items start g) as (combos & g' & Hrun & HF).
  pose proof (clamp_start_le items start) as Hle.
  set (first := clamp_start (length items) start) in *.
  exists combos, g'. split; [done |]. split.
  - apply Forall2_length in HF. rewrite length_seq in HF. lia.
  - replace (length items + 1 - first)%nat with (S (length items - first)) in HF by lia.
    rewrite seq_S in HF.
    apply Forall2_app_inv_l in HF as (cs & c & _ & Hc & ->).
    apply Forall2_cons_inv_l in Hc as (c' & nil' & [Hlen Hsub] & Hnil & ->).
    apply Forall2_nil_inv_l in Hnil as ->.
    rewrite last_snoc. f_equal. apply sublist_full; [done |]. lia.
Qed.

(** X5: with [start <= 0] the first combination is the empty one; with
    [start >= len(items)] the result is the single combination [items],
    whatever the draws. *)
Theorem random_combinations_extremes items start (g : Random.rng) :
  ((start ≤ 0)%Z →
     ∃ combos, fst (random_combinations items start g) = Ok ([] :: combos)) ∧
  ((Z.of_nat (length items) ≤ start)%Z →
     fst (random_combinations items start g) = Ok [items]).
Proof.
  destruct (random_combinations_sized items start g) as (combos & g' & Hrun & HF).
  rewrite Hrun. simpl. split.
  - intros Hstart.
    assert (clamp_start (length items) start = 0%nat) as Hc
      by (unfold clamp_start; lia).
    rewrite Hc in HF.
    replace (length items + 1 - 0)%nat with (S (length items)) in HF by lia.
    simpl in HF.
    apply Forall2_cons_inv_l in HF as (c & cs & [Hlen _] & _ & ->).
    exists cs. by apply nil_length_inv in Hlen as ->.
  - intros Hstart.
    assert (clamp_start (length items) start = length items) as Hc
      by (unfold clamp_start; lia).
    rewrite Hc in HF.
    replace (length items + 1 - length items)%nat with 1%nat in HF by lia.
    simpl in HF.
    apply Forall2_cons_inv_l in HF as (c & cs & [Hlen Hsub] & Hnil & ->).
    apply Forall2_nil_inv_l in Hnil as ->.
    do 2 f_equal. apply sublist_full; [done | lia].
Qed.
End random_combinations_facts.

(** X5 at a pool of three, for a negative and a large [start]. *)
Lemma random_combinations_extremes_witness :
  (∃ combos, fst (random_combinations [1; 2; 3]%nat (-4) (λ i, i + 1)%nat)
             = Ok ([] :: combos)) ∧
  fst (random_combinations [1; 2; 3]%nat 7 (λ i, i + 1)%nat) = Ok [[1; 2; 3]%nat].
Proof.
  split.
  - apply (random_combinations_extremes [1; 2; 3]%nat (-4)). lia.
  - apply (random_combinations_extremes [1; 2; 3]%nat 7). simpl. lia.
Defined.

(** * Further properties of the encoder built by [set_target_labels] *)

Section label_dict_facts.
Context {LT : Type} `{Countable LT}.
Implicit Types (labels : list LT).

(** The dictionary comprehension stores a label with the last position at
    which it occurs. *)
Lemma label_dict_last_occurrence labels l i :
  label_dict labels !! l = Some i ↔
  labels !! i = Some l ∧ ∀ j, (i < j)%nat → labels !! j ≠ Some l.
Proof.
  revert i. induction labels as [|x labels IH] using rev_ind; intros i.
  - unfold label_dict. simpl. rewrite lookup_empty. split; [done |].
    by intros [? _].
  - rewrite label_dict_snoc, lookup_insert. case_decide as Hx.
    + subst x. split.
      * intros [= <-]. split.
        -- rewrite lookup_app_r by lia. by rewrite Nat.sub_diag.
        -- intros j Hj. rewrite lookup_ge_None_2; [done |].
           rewrite length_app. simpl. lia.
      * intros [Hi Hlast]. f_equal.
        pose proof (lookup_lt_Some _ _ _ Hi) as Hlt.
        rewrite length_app in Hlt. simpl in Hlt.
        destruct (decide (i = length labels)) as [->|Hne]; [done |].
        exfalso. apply (Hlast (length labels)); [lia |].
        rewrite lookup_app_r by lia. by rewrite Nat.sub_diag.
    + rewrite IH. split.
      * intros [Hi Hlast]. split; [by apply lookup_app_l_Some |].
        intros j Hj Hjl. apply lookup_app_Some in Hjl as [Hjl|[_ Hjl]].
        -- by apply (Hlast j).
        -- apply list_lookup_singleton_Some in Hjl as [_ ->]. done.
      * intros [Hi Hlast].
        apply lookup_app_Some in Hi as [Hi|[_ Hi]].
        -- split; [done |]. intros j Hj Hjl. apply (Hlast j Hj).
           by apply lookup_app_l_Some.
        -- apply list_lookup_singleton_Some in Hi as [_ ->]. done.
Qed.

Lemma label_dict_injective labels l1 l2 i :
  label_dict labels !! l1 = Some i → label_dict labels !! l2 = Some i → l1 = l2.
Proof. intros H1%label_dict_lookup_Some H2%label_dict_lookup_Some. congruence. Qed.

(** The last position of a non-empty list of labels is a column in use. *)
Lemma label_dict_last_column labels x :
  label_dict (labels ++ [x]) !! x = Some (length labels).
Proof. rewrite label_dict_snoc. apply lookup_insert_eq. Qed.
End label_dict_facts.

Section encoder_built.
Context {DT : Type} {LT : Type} `{Countable LT} {score : Type} `{Countable score}.
Implicit Types (self : DeterministicTextClassifier DT LT score) (labels : list LT).

(** X6: the dictionary [set_target_labels labels] hands to the encoder
    stores for a label the last position at which it occurs in [labels],
    and has no entry exactly for the labels that do not occur in it. *)
Theorem set_target_labels_dict_last_position self labels (l : LT) :
  (∀ i, mapping (encoder (set_target_labels self labels)) !! l = Some i ↔
        labels !! i = Some l ∧ ∀ j, (i < j)%nat → labels !! j ≠ Some l) ∧
  (mapping (encoder (set_target_labels self labels)) !! l = None ↔ l ∉ labels).
Proof.
  simpl. split.
  - intros i. apply label_dict_last_occurrence.
  - rewrite <- label_dict_is_Some. apply eq_None_not_Some.
Qed.

(** X7: whatever labels are supplied, repeated or not, the dictionary
    [set_target_labels labels] hands to the encoder stores no column for
    two labels, every column it stores is a position of [labels], and the
    last position of a non-empty [labels] is always among them. *)
Theorem set_target_labels_dict_injective self labels :
  let enc := encoder (set_target_labels self labels) in
  (∀ l1 l2 i, mapping enc !! l1 = Some i → mapping enc !! l2 = Some i → l1 = l2) ∧
  (∀ c, c ∈ columns enc → (c < length labels)%nat) ∧
  (labels ≠ [] → (length labels - 1)%nat ∈ columns enc).
Proof.
  simpl. split; [| split].
  - intros l1 l2 i. apply label_dict_injective.
  - intros c. unfold columns. simpl.
    intros [l Hl%label_dict_lookup_Some]%elem_of_map_img.
    by eapply lookup_lt_Some.
  - intros Hne. destruct labels as [|x labels0 _] using rev_ind; [done |].
    unfold columns. simpl. apply elem_of_map_img. exists x.
    rewrite length_app. simpl.
    replace (length labels0 + 1 - 1)%nat with (length labels0) by lia.
    apply label_dict_last_column.
Qed.

(** X8: the columns in use after [set_target_labels labels] are contiguous
    from 0 exactly when no label occurs twice in [labels]. *)
Theorem contiguous_iff_no_repeated_label self labels :
  contiguous_from_0 (encoder (set_target_labels self labels)) ↔ NoDup labels.
Proof.
  split.
  - intros Hcont. unfold contiguous_from_0 in Hcont. simpl in Hcont.
    set (enc := {| mapping := label_dict labels |}) in *.
    assert (∀ i, (i < length labels)%nat → i ∈ columns enc) as Hall.
    { intros i Hi. destruct labels as [|x0 labels0] using rev_ind; [simpl in Hi; lia |].
      clear IHlabels0. rewrite length_app in Hi. simpl in Hi.
      assert (length labels0 ∈ columns enc) as Hlast.
      { unfold columns, enc. simpl. apply elem_of_map_img. exists x0.
        apply label_dict_last_column. }
      rewrite Hcont in Hlast |- *. apply elem_of_set_seq in Hlast.
      apply elem_of_set_seq. lia. }
    apply NoDup_alt. intros i j x Hi Hj.
    assert (∀ i j, (i < j)%nat → labels !! i = Some x → labels !! j = Some x → False)
      as Hlt.
    { clear i j Hi Hj. intros i j Hij Hi Hj.
      pose proof (Hall i (lookup_lt_Some _ _ _ Hi)) as Hcol.
      unfold columns, enc in Hcol. simpl in Hcol.
      apply elem_of_map_img in Hcol as [l Hl].
      apply label_dict_last_occurrence in Hl as [Hl Hlast].
      assert (l = x) as -> by congruence. by apply (Hlast j). }
    destruct (Nat.lt_trichotomy i j) as [Hij|[->|Hji]]; [| done |].
    + exfalso. by apply (Hlt i j).
    + exfalso. by apply (Hlt j i).
  - intros Hnd. unfold contiguous_from_0. simpl.
    rewrite (columns_label_dict_NoDup labels Hnd) at 2.
    rewrite size_set_seq. by apply columns_label_dict_NoDup.
Qed.
End encoder_built.

(** * Further properties of the adapter *)

Lemma traverse_first_Err {A B : Type} (f : A → result B) pre x post e :
  Forall (λ y, ∃ z, f y = Ok z) pre → f x = Err e →
  traverse f (pre ++ x :: post) = Err e.
Proof.
  intros Hpre Hx. induction Hpre as [|y pre [z Hz] _ IH]; simpl.
  - by rewrite Hx.
  - by rewrite Hz, IH.
Qed.

Lemma yield_from_map_first_Err {A B : Type} (f : A → result B) pre x post e :
  Forall (λ y, ∃ z, f y = Ok z) pre → f x = Err e →
  ∃ items, yield_from_map f (pre ++ x :: post) = (items, Some e) ∧
           Forall2 (λ y z, f y = Ok z) pre items.
Proof.
  intros Hpre Hx. induction Hpre as [|y pre [z Hz] _ (items & Hrun & HF)]; simpl.
  - exists []. rewrite Hx. split; [done | constructor].
  - exists (z :: items). rewrite Hz, Hrun. split; [done | by constructor].
Qed.

Lemma chunks_first {A : Type} (b : nat) (x : A) l :
  (1 ≤ b)%nat → chunks b (x :: l) = take b (x :: l) :: chunks b (drop (b - 1) l).
Proof.
  intros Hb. rewrite chunks_cons. f_equal.
  by replace b with (S (b - 1)) at 2 by lia.
Qed.

Section adapter_more.
Context {KT : Type} {DT : Type} {LT : Type} `{Countable LT}.
Context {score : Type} `{Countable score} `{ScoreLe score}.
Implicit Types (self : DeterministicTextClassifier DT LT score).
Implicit Types (batch instances : list (Instance KT DT)).

(** X9: the label [predict_instances] returns for a row is the label at
    the position of the first maximum of the row in the list of target
    labels the adapter was built with. *)
Theorem predict_instances_label_position `{!ScoreLeLaws score}
    (pf : list DT → result (list (list score))) (labels : list LT) instances b res :
  (1 ≤ b)%Z → one_row_per_instance (init pf labels) →
  predict_instances (init pf labels) instances b = Ok res →
  ∃ mats,
    Forall2 (λ batch m, pf (data <$> batch) = Ok m)
      (chunks (Z.to_nat b) instances) mats ∧
    Forall2 (λ row r, ∃ c l,
               is_first_argmax row c ∧ labels !! c = Some l ∧ snd r = {[ l ]})
      (concat mats) res.
Proof.
  intros Hb Hrows Hres.
  apply predict_instances_Ok in Hres as (processed & Htr & ->); [| done].
  destruct (pred_batches_rows _ _ _ Hrows Htr) as (mats & Hmats & Hdec).
  exists mats. split; [done |].
  eapply Forall2_impl; [exact Hdec |].
  intros row r (c & l & Hc & Hl & Hs). exists c, l.
  repeat split; [by apply np_argmax_row_spec | | done].
  apply inv_mapping_Some in Hl. simpl in Hl. by apply label_dict_lookup_Some.
Qed.

Lemma predict_instances_first_batch_Err self x instances b e :
  (1 ≤ b)%Z →
  _pred_batch self (take (Z.to_nat b) (x :: instances)) = Err e →
  predict_instances self (x :: instances) b = Err e.
Proof.
  intros Hb Hbatch. unfold predict_instances.
  rewrite divide_iterable_in_lists_Ok by done.
  rewrite chunks_first by lia. simpl. by rewrite Hbatch.
Qed.


(** X11: when the prediction function returns for the first batch a matrix
    with a row without columns, [predict_instances] raises [ValueError],
    the refusal of [np.argmax] to take the maximum of nothing. *)
Theorem predict_instances_empty_row self x instances b m :
  (1 ≤ b)%Z →
  predict_function self (data <$> take (Z.to_nat b) (x :: instances)) = Ok m →
  [] ∈ m →
  predict_instances self (x :: instances) b = Err ValueError.
Proof.
  intros Hb Hm Hin.
  apply predict_instances_first_batch_Err; [done |].
  unfold _pred_batch, _pred_proba_batch_raw. rewrite Hm. simpl.
  destruct (np_argmax_axis1 m) as [idx|e] eqn:Hidx.
  - exfalso. apply traverse_Ok_Forall2 in Hidx.
    apply list_elem_of_lookup in Hin as [i Hi].
    by destruct (Forall2_lookup_l _ _ _ _ _ Hidx Hi) as (c & _ & Hc).
  - apply traverse_Err_inv in Hidx as (row & _ & Hrow).
    destruct row; [| done]. by injection Hrow as <-.
Qed.

(** X12: on an empty sequence of instances the predict methods return the
    empty list, and the raw generator yields nothing, for every batch size
    and every prediction function, also one that would raise. *)
Theorem predict_nothing self (b : Z) :
  predict_instances (KT:=KT) self [] b = Ok [] ∧
  predict_proba_instances (KT:=KT) self [] b = Ok [] ∧
  predict_proba_instances_raw (KT:=KT) self [] b = ([], None).
Proof. by repeat split. Qed.

(** X13: when the prediction function raises [e] on a batch and has
    returned on the batches before it, the raw generator yields the pairs
    of those earlier batches and then ends with [e];
    [predict_proba_instances] raises [e], and so does [predict_instances]
    when the rows returned can be decoded. *)
Theorem first_failing_batch self instances b pre bad post e :
  (1 ≤ b)%Z →
  chunks (Z.to_nat b) instances = pre ++ bad :: post →
  Forall (λ batch, ∃ m, predict_function self (data <$> batch) = Ok m) pre →
  predict_function self (data <$> bad) = Err e →
  (∃ items,
     predict_proba_instances_raw self instances b = (items, Some e) ∧
     Forall2 (λ batch item,
                fst item = identifier <$> batch ∧
                predict_function self (data <$> batch) = Ok (snd item))
       pre items) ∧
  predict_proba_instances self instances b = Err e ∧
  (rows_decodable self → predict_instances self instances b = Err e).
Proof.
  intros Hb Hchunks Hpre Hbad. split; [| split].
  - unfold predict_proba_instances_raw.
    rewrite divide_iterable_in_lists_Ok, Hchunks by done.
    destruct (yield_from_map_first_Err (_pred_proba_batch_raw self) pre bad post e)
      as (items & Hrun & HF).
    + eapply Forall_impl; [exact Hpre |]. intros batch [m Hm].
      eexists. apply _pred_proba_batch_raw_Ok. by exists m.
    + by apply _pred_proba_batch_raw_Err.
    + exists items. split; [done |].
      eapply Forall2_impl; [exact HF |].
      intros batch item Hitem.
      apply _pred_proba_batch_raw_Ok in Hitem as (m & Hm & Hitem). by subst item.
  - unfold predict_proba_instances.
    rewrite divide_iterable_in_lists_Ok, Hchunks by done. simpl.
    rewrite (traverse_first_Err (_pred_proba_batch self) pre bad post e); [done | |].
    + eapply Forall_impl; [exact Hpre |]. intros batch [m Hm].
      eexists. apply _pred_proba_batch_Ok. by exists m.
    + unfold _pred_proba_batch. by rewrite (proj2 (_pred_proba_batch_raw_Err _ _ _) Hbad).
  - intros Hdec. unfold predict_instances.
    rewrite divide_iterable_in_lists_Ok, Hchunks by done. simpl.
    rewrite (traverse_first_Err (_pred_batch self) pre bad post e); [done | |].
    + eapply Forall_impl; [exact Hpre |]. intros batch [m Hm].
      by eapply _pred_batch_total.
    + by apply _pred_batch_raised.
Qed.
End adapter_more.

Lemma yield_from_map_None {A B : Type} (f : A → result B) xs ys :
  yield_from_map f xs = (ys, None) → Forall2 (λ x y, f x = Ok y) xs ys.
Proof.
  revert ys. induction xs as [|x xs IH]; intros ys; simpl.
  - intros [= <-]. constructor.
  - destruct (f x) as [y|e] eqn:Hx; [| done].
    destruct (yield_from_map f xs) as [ys' e'] eqn:Hxs.
    intros [= <- ->]. constructor; [done | by apply IH].
Qed.

Lemma traverse_bind_Forall2 {A B C : Type} (f : A → result B) (h : B → result C) xs ys :
  Forall2 (λ x y, f x = Ok y) xs ys →
  traverse (λ x, f x ≫= h) xs = traverse h ys.
Proof.
  induction 1 as [|x y xs ys Hxy _ IH]; simpl; [done |].
  by rewrite Hxy, IH.
Qed.

Section adapter_decoding.
Context {KT : Type} {DT : Type} {LT : Type} `{Countable LT}.
Context {score : Type} `{Countable score} `{ScoreLe score}.
Implicit Types (self : DeterministicTextClassifier DT LT score).
Implicit Types (batch instances : list (Instance KT DT)).

(** X14: an adapter built by [from_callable] from a per-instance function
    that returns score vectors of one length answers instance by instance,
    whatever the batch size: [predict_proba_instances] returns for each
    instance its identifier with the decoding of its own score vector, and
    [predict_instances] returns exactly the lists that hold for each
    instance its identifier with the decoding of the first maximum of its
    own score vector. *)
Theorem from_callable_per_instance (f : DT → result (list score)) g k
    (labels : list LT) instances b :
  (∀ x, f x = Ok (g x)) → (∀ x, length (g x) = k) → (1 ≤ b)%Z →
  predict_proba_instances (from_callable f labels) instances b
  = Ok ((λ x, (identifier x,
               decode_proba_row (encoder (from_callable f labels)) (g (data x))))
          <$> instances) ∧
  (∀ res, predict_instances (from_callable f labels) instances b = Ok res ↔
          Forall2 (predicts_one (from_callable f labels) g) instances res).
Proof.
  intros Hf Hlen Hb.
  pose proof (from_callable_scores_each f g k labels Hf Hlen) as Hg. split.
  - by apply predict_proba_instances_rowwise.
  - intros res. by apply predict_instances_rowwise.
Qed.

(** X15: given that the per-instance function returns on every instance of
    a batch, the batched function [from_callable] builds returns the score
    vectors as the rows of a matrix when the batch is not empty and the
    vectors are of one length, and raises [ValueError] when the batch is
    empty or two vectors differ in length. *)
Theorem batched_predict_function_stacks (f : DT → result (list score)) xs rows :
  traverse f xs = Ok rows →
  (xs ≠ [] → (∀ r1 r2, r1 ∈ rows → r2 ∈ rows → length r1 = length r2) →
     batched_predict_function f xs = Ok rows) ∧
  (xs = [] ∨ (∃ r1 r2, r1 ∈ rows ∧ r2 ∈ rows ∧ length r1 ≠ length r2) →
     batched_predict_function f xs = Err ValueError).
Proof.
  intros Htr. unfold batched_predict_function. rewrite Htr. simpl.
  apply traverse_Ok_Forall2, Forall2_length in Htr.
  destruct rows as [|r rs].
  - split; [by destruct xs | done].
  - unfold np_vstack.
    destruct (forallb (λ r', length r' =? length r)%nat rs) eqn:Hall.
    + split; [done |]. intros [->|(r1 & r2 & Hr1 & Hr2 & Hne)]; [done |].
      exfalso. apply Hne.
      assert (∀ r', r' ∈ r :: rs → length r' = length r) as Hsame.
      { intros r' [->|Hin]%elem_of_cons; [done |].
        apply Nat.eqb_eq. apply list_elem_of_In in Hin.
        exact (proj1 (forallb_forall _ _) Hall r' Hin). }
      by rewrite (Hsame r1 Hr1), (Hsame r2 Hr2).
    + split; [| done]. intros _ Hsame. exfalso.
      apply not_true_iff_false in Hall. apply Hall.
      apply forallb_forall. intros r' Hin. apply Nat.eqb_eq.
      apply list_elem_of_In in Hin.
      apply Hsame; [by right | by left].
Qed.

(** X16: when the per-instance function raises [e] on an instance of a
    batch and has returned on the instances before it, the batched function
    [from_callable] builds raises [e], whatever comes after. *)
Theorem batched_predict_function_raises (f : DT → result (list score)) pre x post e :
  Forall (λ y, ∃ r, f y = Ok r) pre → f x = Err e →
  batched_predict_function f (pre ++ x :: post) = Err e.
Proof.
  intros Hpre Hx. unfold batched_predict_function.
  by rewrite (traverse_first_Err f pre x post e Hpre Hx).
Qed.

(** X17: the provider variants answer for [provider.values()] in its
    order: with a prediction function that returns one row per instance,
    what [predict_provider] and [predict_proba_provider] return is keyed by
    the identifiers of the values in order, and
    [predict_proba_provider_raw] yields one pair per batch of the values
    whenever the prediction function returns. *)
Theorem provider_variants_follow_values self (provider : InstanceProvider KT DT) b :
  (1 ≤ b)%Z → one_row_per_instance self →
  (∀ res, predict_provider self provider b = Ok res →
          res.*1 = identifier <$> values provider) ∧
  (∀ res, predict_proba_provider self provider b = Ok res →
          res.*1 = identifier <$> values provider) ∧
  (returns_normally self →
     ∃ items, predict_proba_provider_raw self provider b = (items, None) ∧
              Forall2 (λ batch item, fst item = identifier <$> batch)
                (chunks (Z.to_nat b) (values provider)) items).
Proof.
  intros Hb Hrows. split; [| split].
  - intros res. by apply predict_instances_keys.
  - intros res. by apply predict_proba_instances_keys.
  - intros Hret. unfold predict_proba_provider_raw, predict_proba_instances_raw.
    rewrite divide_iterable_in_lists_Ok by done.
    destruct (yield_from_map_total (_pred_proba_batch_raw self)
                (chunks (Z.to_nat b) (values provider))) as (items & Hitems & HF).
    { eapply Forall_impl; [apply chunks_Forall; lia |]. intros batch [Hne _]. simpl.
      destruct (Hret (data <$> batch)) as [m Hm]; [by destruct batch |].
      eexists. apply _pred_proba_batch_raw_Ok. by exists m. }
    exists items. split; [done |].
    eapply Forall2_impl; [exact HF |]. intros batch item Hitem.
    apply _pred_proba_batch_raw_Ok in Hitem as (m & _ & Hitem). by subst item.
Qed.

Lemma decode_proba_row_elem_of (enc : DictionaryEncoder LT) (row : list score) l v :
  (l, v) ∈ decode_proba_row enc row ↔
  ∃ c, mapping enc !! l = Some c ∧ row !! c = Some v.
Proof.
  unfold decode_proba_row. rewrite elem_of_list_to_set, list_elem_of_omap. split.
  - intros ([l' c] & Hin & Hrow). apply elem_of_map_to_list in Hin. simpl in Hrow.
    destruct (row !! c) as [v'|] eqn:Hc; [| done].
    injection Hrow as -> ->. by exists c.
  - intros (c & Hl & Hc). exists (l, c). split; [by apply elem_of_map_to_list |].
    simpl. by rewrite Hc.
Qed.

Lemma pred_proba_batches_rows self batches processed :
  one_row_per_instance self →
  traverse (_pred_proba_batch self) batches = Ok processed →
  ∃ mats,
    Forall2 (λ batch m, predict_function self (data <$> batch) = Ok m) batches mats ∧
    Forall2 (λ row r, snd r = decode_proba_row (encoder self) row)
      (concat mats) (zip_chain processed).
Proof.
  intros Hrows Htr. apply traverse_Ok_Forall2 in Htr.
  induction Htr as [|batch p batches processed Hp _ (mats & Hmats & IH)].
  - exists []. split; constructor.
  - apply _pred_proba_batch_Ok in Hp as (m & Hm & ->).
    exists (m :: mats). split; [by constructor |].
    rewrite zip_chain_cons. simpl. apply Forall2_app; [| done].
    apply (Forall2_zip_snd (λ row z, z = decode_proba_row (encoder self) row)).
    + unfold decode_proba_matrix. apply Forall2_fmap_r, Forall_Forall2_diag.
      by apply Forall_forall.
    + unfold decode_proba_matrix. rewrite !length_fmap.
      symmetry. rewrite <- (length_fmap data). by apply Hrows.
Qed.

(** X19: for an adapter built with target labels none of which occurs
    twice, and a prediction function that returns one row per instance, the
    entry [predict_proba_instances] returns for an instance holds the pair
    of a label and a score exactly when, for some position, the label is
    the target label at that position and the score is the one at that
    position of the instance's row; the entries are keyed by the
    identifiers of the instances in order. *)
Theorem predict_proba_instances_pairs
    (pf : list DT → result (list (list score))) (labels : list LT) instances b res :
  (1 ≤ b)%Z → NoDup labels → one_row_per_instance (init pf labels) →
  predict_proba_instances (init pf labels) instances b = Ok res →
  ∃ mats,
    Forall2 (λ batch m, pf (data <$> batch) = Ok m)
      (chunks (Z.to_nat b) instances) mats ∧
    res.*1 = identifier <$> instances ∧
    Forall2 (λ row r, ∀ l v,
               (l, v) ∈ snd r ↔
               ∃ i, labels !! i = Some l ∧ row !! i = Some v)
      (concat mats) res.
Proof.
  intros Hb Hnd Hrows Hres.
  pose proof (predict_proba_instances_keys _ instances b res Hb Hrows Hres) as Hk.
  apply predict_proba_instances_Ok in Hres as (processed & Htr & ->); [| done].
  destruct (pred_proba_batches_rows _ _ _ Hrows Htr) as (mats & Hmats & Hdec).
  exists mats. split; [done |]. split; [done |].
  eapply Forall2_impl; [exact Hdec |].
  intros row r -> l v. rewrite decode_proba_row_elem_of. simpl. split.
  - intros (c & Hl & Hc). exists c. split; [| done].
    by apply label_dict_lookup_Some.
  - intros (i & Hl & Hi). exists i. split; [| done].
    by apply label_dict_NoDup.
Qed.

(** X20: the decoding methods answer as the raw generator followed by
    decoding: when [predict_proba_instances_raw] runs to its end,
    [predict_proba_instances] returns the chained zips of the yielded keys
    with the decoded matrices, and [predict_instances] is the chained zips
    of the keys with the decoded [argmax] of the matrices, or the first
    exception the [argmax] or the decoding raises. *)
Theorem decoded_is_raw_then_decode self instances b items :
  predict_proba_instances_raw self instances b = (items, None) →
  predict_proba_instances self instances b
  = Ok (zip_chain ((λ item, (fst item, decode_proba_matrix (encoder self) (snd item)))
                     <$> items)) ∧
  predict_instances self instances b
  = (decoded ← traverse (λ item, idx ← np_argmax_axis1 (snd item);
                                 dec ← decode_matrix (encoder self) idx;
                                 mret (fst item, dec)) items;
     mret (zip_chain decoded)).
Proof.
  unfold predict_proba_instances_raw, predict_proba_instances, predict_instances.
  destruct (divide_iterable_in_lists instances b) as [batches|e]; [| done].
  intros HF%yield_from_map_None. simpl. split.
  - assert (traverse (_pred_proba_batch self) batches
            = Ok ((λ item, (fst item, decode_proba_matrix (encoder self) (snd item)))
                    <$> items)) as ->; [| done].
    clear -HF. induction HF as [|batch item batches items Hitem _ IH]; [done |].
    assert (_pred_proba_batch self batch
            = Ok (fst item, decode_proba_matrix (encoder self) (snd item))) as Hp.
    { apply _pred_proba_batch_raw_Ok in Hitem as (m & Hm & ->).
      apply _pred_proba_batch_Ok. by exists m. }
    rewrite fmap_cons. cbn [traverse]. by rewrite Hp, IH.
  - by rewrite <- (traverse_bind_Forall2 (_pred_proba_batch_raw self) _ _ _ HF).
Qed.
End adapter_decoding.

(** * Further properties of the test fixtures *)

Lemma predict_fn_scores_length (instance : string) :
  length (predict_fn_scores instance) = 2%nat.
Proof. unfold predict_fn_scores. by destruct (any_in _ _). Qed.

(** X18: for every sequence of instances and every batch size of at least
    one, [TEST_MODEL] predicts [punctuation] for the texts that hold one of
    the characters [predict_fn] looks for, and [no_punctuation] for the
    others, keyed by the identifiers of the instances in order. *)
Theorem TEST_MODEL_predicts_expected_label {KT : Type}
    (instances : list (Instance KT string)) (b : Z) :
  (1 ≤ b)%Z →
  predict_instances TEST_MODEL instances b
  = Ok ((λ x, (identifier x, {[ expected_label (data x) ]})) <$> instances).
Proof.
  intros Hb.
  apply (predict_instances_rowwise TEST_MODEL predict_fn_scores);
    [done | exact TEST_MODEL_scores_each |].
  apply Forall2_fmap_r, Forall_Forall2_diag, Forall_forall.
  intros x _. split; [done |]. simpl.
  unfold predict_fn_scores, expected_label.
  destruct (any_in predict_fn_marks (data x)).
  - exists 0%nat, "punctuation". repeat split; by vm_compute.
  - exists 1%nat, "no_punctuation". repeat split; by vm_compute.
Qed.

(** X18 at three texts in batches of two. *)
Lemma TEST_MODEL_predicts_expected_label_witness :
  predict_instances TEST_MODEL (instances_of ["a!"; "zz"; ""]) 2
  = Ok [(0%nat, {[ "punctuation" ]}); (1%nat, {[ "no_punctuation" ]});
        (2%nat, {[ "no_punctuation" ]})].
Proof.
  apply (TEST_MODEL_predicts_expected_label (instances_of ["a!"; "zz"; ""]) 2). lia.
Defined.

(** X9 at the test model. *)
Lemma predict_instances_label_position_witness :
  ∃ res mats,
    predict_instances TEST_MODEL (instances_of ["!"; "z"]) 1 = Ok res ∧
    Forall2 (λ batch m, predict_function TEST_MODEL (data <$> batch) = Ok m)
      (chunks 1 (instances_of ["!"; "z"])) mats ∧
    Forall2 (λ row r, ∃ c l,
               is_first_argmax row c ∧
               ["punctuation"; "no_punctuation"] !! c = Some l ∧
               snd r = {[ l ]})
      (concat mats) res.
Proof.
  destruct (predict_instances_total TEST_MODEL (instances_of ["!"; "z"]) 1)
    as [res Hres];
    [lia | exact TEST_MODEL_returns_normally | exact TEST_MODEL_rows_decodable |].
  destruct (predict_instances_label_position
              (batched_predict_function predict_fn)
              ["punctuation"; "no_punctuation"] (instances_of ["!"; "z"]) 1 res)
    as (mats & Hmats & Hrows); [lia | exact TEST_MODEL_one_row | exact Hres |].
  exists res, mats. split; [exact Hres |]. split; [exact Hmats | exact Hrows].
Defined.


(** X11 at a model whose matrices have no columns. *)
Lemma predict_instances_empty_row_witness :
  predict_instances NO_COLUMN_MODEL (instances_of ["z"]) 1 = Err ValueError.
Proof.
  apply (predict_instances_empty_row NO_COLUMN_MODEL
           {| identifier := 0%nat; data := "z" |} [] 1 [[]]).
  - lia.
  - reflexivity.
  - by left.
Defined.

(** X13 at a model that raises on the second of three batches. *)
Lemma first_failing_batch_witness :
  (∃ items,
     predict_proba_instances_raw PICKY_MODEL (instances_of ["!"; "z"; "a"]) 1
     = (items, Some (Raised "unsupported")) ∧
     length items = 1%nat) ∧
  predict_proba_instances PICKY_MODEL (instances_of ["!"; "z"; "a"]) 1
  = Err (Raised "unsupported").
Proof.
  destruct (first_failing_batch PICKY_MODEL (instances_of ["!"; "z"; "a"]) 1
              [[ {| identifier := 0%nat; data := "!" |} ]]
              [ {| identifier := 1%nat; data := "z" |} ]
              [[ {| identifier := 2%nat; data := "a" |} ]]
              (Raised "unsupported"))
    as ((items & Hrun & HF) & Hproba & _).
  - lia.
  - reflexivity.
  - constructor; [| constructor]. eexists. reflexivity.
  - reflexivity.
  - split; [| exact Hproba]. exists items. split; [exact Hrun |].
    by apply Forall2_length in HF.
Defined.

(** X14 at the test model. *)
Lemma from_callable_per_instance_witness :
  predict_proba_instances TEST_MODEL (instances_of ["!"; "z"]) 3
  = Ok ((λ x, (identifier x,
               decode_proba_row (encoder TEST_MODEL) (predict_fn_scores (data x))))
          <$> instances_of ["!"; "z"]) ∧
  (∀ res, predict_instances TEST_MODEL (instances_of ["!"; "z"]) 3 = Ok res ↔
          Forall2 (predicts_one TEST_MODEL predict_fn_scores)
            (instances_of ["!"; "z"]) res).
Proof.
  apply (from_callable_per_instance predict_fn predict_fn_scores 2%nat
           ["punctuation"; "no_punctuation"] (instances_of ["!"; "z"]) 3).
  - reflexivity.
  - exact predict_fn_scores_length.
  - lia.
Defined.

(** X15 at score vectors of one length and of two lengths. *)
Lemma batched_predict_function_stacks_witness :
  batched_predict_function ragged_fn ["a"; "b"] = Ok [[Q2Qc 1]; [Q2Qc 1]] ∧
  batched_predict_function ragged_fn ["a"; "bb"] = Err ValueError.
Proof.
  split.
  - apply (batched_predict_function_stacks ragged_fn ["a"; "b"]); [reflexivity | done |].
    intros r1 r2 Hr1 Hr2. apply list_elem_of_In in Hr1, Hr2. simpl in Hr1, Hr2.
    destruct Hr1 as [<-|[<-|[]]], Hr2 as [<-|[<-|[]]]; reflexivity.
  - apply (batched_predict_function_stacks ragged_fn ["a"; "bb"]
             [[Q2Qc 1]; [Q2Qc 1; Q2Qc 1]]); [reflexivity |].
    right. exists [Q2Qc 1], [Q2Qc 1; Q2Qc 1].
    split; [by left |]. split; [right; by left |]. simpl. lia.
Defined.

(** X16 at a batch whose second text is refused. *)
Lemma batched_predict_function_raises_witness :
  batched_predict_function picky_fn ["!"; "z"; "a"] = Err (Raised "unsupported").
Proof.
  apply (batched_predict_function_raises picky_fn ["!"] "z" ["a"]).
  - constructor; [| constructor]. eexists. reflexivity.
  - reflexivity.
Defined.

(** X17 at a provider of two instances. *)
Lemma provider_variants_follow_values_witness :
  (∃ items,
     predict_proba_provider_raw TEST_MODEL {| values := instances_of ["!"; "z"] |} 1
     = (items, None) ∧
     Forall2 (λ batch item, fst item = identifier <$> batch)
       (chunks 1 (instances_of ["!"; "z"])) items) ∧
  (∀ res,
     predict_provider TEST_MODEL {| values := instances_of ["!"; "z"] |} 1 = Ok res →
     res.*1 = [0%nat; 1%nat]).
Proof.
  destruct (provider_variants_follow_values TEST_MODEL
              {| values := instances_of ["!"; "z"] |} 1)
    as (Hkeys & _ & Hraw); [lia | exact TEST_MODEL_one_row |].
  split; [exact (Hraw TEST_MODEL_returns_normally) | exact Hkeys].
Defined.

(** X19 at the test model. *)
Lemma predict_proba_instances_pairs_witness :
  ∃ res mats,
    predict_proba_instances TEST_MODEL (instances_of ["!"; "z"]) 1 = Ok res ∧
    Forall2 (λ batch m, predict_function TEST_MODEL (data <$> batch) = Ok m)
      (chunks 1 (instances_of ["!"; "z"])) mats ∧
    Forall2 (λ row r, ∀ l v,
               (l, v) ∈ snd r ↔
               ∃ i, ["punctuation"; "no_punctuation"] !! i = Some l ∧
                    row !! i = Some v)
      (concat mats) res.
Proof.
  destruct (predict_proba_instances_total TEST_MODEL (instances_of ["!"; "z"]) 1)
    as [res Hres]; [lia | exact TEST_MODEL_returns_normally |].
  destruct (predict_proba_instances_pairs (batched_predict_function predict_fn)
              ["punctuation"; "no_punctuation"] (instances_of ["!"; "z"]) 1 res)
    as (mats & Hmats & _ & Hrows).
  - lia.
  - apply (bool_decide_unpack _). vm_compute. reflexivity.
  - exact TEST_MODEL_one_row.
  - exact Hres.
  - exists res, mats. split; [exact Hres |]. split; [exact Hmats | exact Hrows].
Defined.

(** X20 at the test model. *)
Lemma decoded_is_raw_then_decode_witness :
  ∃ items,
    predict_proba_instances_raw TEST_MODEL (instances_of ["!"; "z"]) 1
    = (items, None) ∧
    predict_proba_instances TEST_MODEL (instances_of ["!"; "z"]) 1
    = Ok (zip_chain ((λ item, (fst item,
                               decode_proba_matrix (encoder TEST_MODEL) (snd item)))
                       <$> items)).
Proof.
  eexists. split; [reflexivity |].
  apply (decoded_is_raw_then_decode TEST_MODEL (instances_of ["!"; "z"]) 1).
  reflexivity.
Defined.
